(** * Transaction executor: ledger, block executor and chain driver

    A shallow embedding of [main.go] (the ledger [InMemoryAccountState],
    [ExecuteBlock] with its worker pool, and [Start]) and of the [transfer]
    transaction of the test file, followed by the properties of the
    specification that were checked against it. *)

From stdpp Require Import gmap strings list fin_maps pretty relations.

Local Open Scope Z_scope.

(** ** Machine integers

    Go's [int] and [uint] are taken at their 64-bit width.  Values are kept
    in [Z]; every arithmetic operation of the source is followed by the
    wrap-around of its type. *)

Definition uint_modulus : Z := 2 ^ 64.
Definition int_min : Z := - 2 ^ 63.
Definition int_max : Z := 2 ^ 63 - 1.

(** [uint(x)], and the result of any [uint] operation whose exact value is [x]. *)
Definition to_uint (x : Z) : Z := x mod uint_modulus.

(** The result of any [int] operation whose exact value is [x]. *)
Definition to_int (x : Z) : Z := (x + 2 ^ 63) mod uint_modulus - 2 ^ 63.

Definition is_uint (x : Z) : Prop := 0 <= x < uint_modulus.
Definition is_int (x : Z) : Prop := int_min <= x <= int_max.

(** ** Data model *)

(** [type AccountUpdate struct { Name string; BalanceChange int }] *)
Record AccountUpdate := mkUpdate { Name : string; BalanceChange : Z }.

(** [type AccountValue struct { Name string; Balance uint }]; the field
    [Name] is called [AName] here, [AccountUpdate] already owns [Name]. *)
Record AccountValue := mkValue { AName : string; Balance : Z }.

(** Go's [error]: [None] is [nil], [Some msg] an error with that message. *)
Definition error := option string.

(** [type AccountState interface { GetAccount; ApplyUpdates }].  A call of
    [ApplyUpdates] mutates the receiver; here it returns the new state. *)
Class AccountState (St : Type) := {
  GetAccount : St → string → AccountValue;
  ApplyUpdates : St → list AccountUpdate → St
}.

(** [type InMemoryAccountState struct { accounts map[string]uint; mu sync.RWMutex }].
    The mutex carries no data; its discipline is modelled with [locked_state]
    below. *)
Record InMemoryAccountState := mkState { accounts : gmap string Z }.

(** [s.accounts[name]] as an r-value: the zero value for a missing key. *)
Definition balance_of (m : gmap string Z) (name : string) : Z :=
  default 0 (m !! name).

Definition NewInMemoryAccountState (initialAccounts : list AccountValue)
  : InMemoryAccountState :=
  mkState (fold_left (λ m acc, <[AName acc := Balance acc]> m) initialAccounts ∅).

Definition IM_GetAccount (s : InMemoryAccountState) (name : string) : AccountValue :=
  let balance := balance_of (accounts s) name in
  mkValue name balance.

(** One iteration of the loop of [applyUpdates]. *)
Definition apply_update (m : gmap string Z) (update : AccountUpdate) : gmap string Z :=
  let currentBalance := balance_of m (Name update) in
  if 0 <=? BalanceChange update then
    <[Name update := to_uint (currentBalance + to_uint (BalanceChange update))]> m
  else
    let decrease := to_uint (to_int (- BalanceChange update)) in
    if currentBalance <? decrease then <[Name update := 0]> m
    else <[Name update := to_uint (currentBalance - decrease)]> m.

Definition applyUpdates (s : InMemoryAccountState) (updates : list AccountUpdate)
  : InMemoryAccountState :=
  mkState (fold_left apply_update updates (accounts s)).

Arguments balance_of : simpl never.
Arguments apply_update : simpl never.

(** The ledger after a sequence of committed batches. *)
Definition commit_all (s : InMemoryAccountState) (batches : list (list AccountUpdate))
  : InMemoryAccountState :=
  fold_left applyUpdates batches s.

(** [getSnapshot]: one [AccountValue] per key of the map.  Go leaves the
    iteration order of a map unspecified; this is the listing in the order
    of [map_to_list], and the executor below lets a caller receive any
    permutation of it. *)
Definition getSnapshot (s : InMemoryAccountState) : list AccountValue :=
  (λ kv, mkValue kv.1 kv.2) <$> map_to_list (accounts s).

#[export] Instance InMemoryAccountState_AccountState : AccountState InMemoryAccountState := {
  GetAccount := IM_GetAccount;
  ApplyUpdates := applyUpdates
}.

(** [type Transaction interface { Updates(AccountState) ([]AccountUpdate, error) }].
    Both results are kept: Go returns the slice and the error side by side.
    [Updates] is a function of the ledger it is handed, as for [transfer],
    which reads it through [GetAccount]. *)
Record Transaction := mkTransaction {
  Updates : InMemoryAccountState → list AccountUpdate * error
}.

(** [type Block struct { Transactions []Transaction }] *)
Record Block := mkBlock { Transactions : list Transaction }.

(** ** The [transfer] transaction of the test file *)

Record transfer := mkTransfer { from : string; to : string; value : Z }.

Definition transfer_error (t : transfer) (have : Z) : string :=
  "insufficient balance: account " +:+ from t +:+ " has " +:+ pretty have
    +:+ ", needs " +:+ pretty (value t).

Definition transfer_Updates {St : Type} `{!AccountState St} (t : transfer) (state : St)
  : list AccountUpdate * error :=
  let fromAcc := GetAccount state (from t) in
  if Balance fromAcc <? to_uint (value t) then
    ([], Some (transfer_error t (Balance fromAcc)))
  else
    ([mkUpdate (from t) (to_int (- value t)); mkUpdate (to t) (value t)], None).

Definition transfer_tx (t : transfer) : Transaction :=
  mkTransaction (transfer_Updates t).

(** ** Channels

    [make(chan T, 1)]: a buffer of one element and a closed flag. *)

Record chan (A : Type) := mkChan { buf : option A; closed : bool }.
Arguments mkChan {A} _ _.
Arguments buf {A} _.
Arguments closed {A} _.

Definition make_chan {A : Type} : chan A := mkChan None false.

Inductive send_outcome (A : Type) :=
| SendOk (c : chan A)      (* the value went into the buffer *)
| SendBlocked              (* the buffer is full: the sender waits *)
| SendPanic.               (* send on a closed channel *)
Arguments SendOk {A} _.
Arguments SendBlocked {A}.
Arguments SendPanic {A}.

(** [c <- v] *)
Definition chan_send {A : Type} (c : chan A) (v : A) : send_outcome A :=
  if closed c then SendPanic
  else match buf c with
       | None => SendOk (mkChan (Some v) false)
       | Some _ => SendBlocked
       end.

(** [v, ok := <-c]: [None] when the receiver has to wait; on a closed and
    drained channel the zero value of the element type, with [ok = false]. *)
Definition chan_recv {A : Type} (zero : A) (c : chan A) : option (A * bool * chan A) :=
  match buf c with
  | Some v => Some (v, true, mkChan None (closed c))
  | None => if closed c then Some (zero, false, c) else None
  end.

(** [close(c)]; each channel of [ExecuteBlock] is closed at one program
    point that runs once. *)
Definition chan_close {A : Type} (c : chan A) : chan A := mkChan (buf c) true.

(** ** [ExecuteBlock] as a transition system

    The goroutines of [ExecuteBlock] are the caller (the loop over the
    transactions, then [close(jobs)] and the drain loop), [numWorkers]
    workers, and the goroutine that waits for the workers and closes
    [results].  Each step below is one channel operation, or one call of
    [Updates] or [ApplyUpdates]. *)

(** [txJob]; its field [state] is the pointer to the one ledger of the run,
    so a worker that runs the job reads [ledger] of the machine state. *)
Record txJob := mkJob { transaction : Transaction; index : Z }.

(** [txResult]; its field [index] is [rindex] here. *)
Record txResult := mkResult { updates : list AccountUpdate; rindex : Z; err : error }.

(** The zero value of [txResult], received from a closed channel. *)
Definition zero_result : txResult := mkResult [] 0 None.
Definition zero_job : txJob := mkJob (mkTransaction (λ _, ([], None))) 0.

Inductive worker_pc :=
| WRecv                    (* at [for job := range jobs] *)
| WRun (job : txJob)       (* before [job.transaction.Updates(job.state)] *)
| WSend (r : txResult)     (* before [results <- txResult{...}] *)
| WExit.                   (* returned; [wg.Done()] has run *)

Inductive main_pc :=
| MSend (i : Z) (rest : list Transaction)  (* head of the loop, at index [i] *)
| MRecv (i : Z) (rest : list Transaction)  (* at [result := <-results] *)
| MDrain                                   (* at [for range results] *)
| MReturn (ret : list AccountValue * error)
| MPanic.                                  (* the process died in a panic *)

Record exec_state := mkExec {
  ledger : InMemoryAccountState;
  jobs : chan txJob;
  results : chan txResult;
  workers : list worker_pc;
  main : main_pc
}.

(** What an observer of the ledger sees of a run. *)
Inductive event :=
| EvUpdates (i : Z) (view : InMemoryAccountState)  (* [Updates] of transaction [i] ran on [view] *)
| EvApply (i : Z) (us : list AccountUpdate)        (* [ApplyUpdates] with the result of index [i] *)
| EvSkip (i : Z).                                  (* the result of index [i] had an error *)

Definition ExecuteBlock_init (block : Block) (state : InMemoryAccountState)
    (numWorkers : Z) : exec_state :=
  mkExec state make_chan make_chan
         (replicate (Z.to_nat numWorkers) WRecv)
         (MSend 0 (Transactions block)).

(** The caller's goroutine. *)
Definition main_step (st : exec_state) : option (option event * exec_state) :=
  match main st with
  | MSend i [] =>
      Some (None, mkExec (ledger st) (chan_close (jobs st)) (results st) (workers st) MDrain)
  | MSend i (tx :: rest) =>
      match chan_send (jobs st) (mkJob tx i) with
      | SendOk c =>
          Some (None, mkExec (ledger st) c (results st) (workers st) (MRecv i rest))
      | SendBlocked => None
      | SendPanic =>
          Some (None, mkExec (ledger st) (jobs st) (results st) (workers st) MPanic)
      end
  | MRecv i rest =>
      match chan_recv zero_result (results st) with
      | Some (result, _, c) =>
          match err result with
          | None =>
              Some (Some (EvApply (rindex result) (updates result)),
                    mkExec (ApplyUpdates (ledger st) (updates result))
                           (jobs st) c (workers st) (MSend (i + 1) rest))
          | Some _ =>
              Some (Some (EvSkip (rindex result)),
                    mkExec (ledger st) (jobs st) c (workers st) (MSend (i + 1) rest))
          end
      | None => None
      end
  | MDrain =>
      match chan_recv zero_result (results st) with
      | Some (_, true, c) =>
          Some (None, mkExec (ledger st) (jobs st) c (workers st) MDrain)
      | Some (_, false, c) =>
          Some (None, mkExec (ledger st) (jobs st) c (workers st)
                             (MReturn (getSnapshot (ledger st), None)))
      | None => None
      end
  | MReturn _ | MPanic => None
  end.

Definition alive (st : exec_state) : bool :=
  match main st with MPanic => false | _ => true end.

(** Worker number [k]. *)
Definition worker_step (k : nat) (st : exec_state) : option (option event * exec_state) :=
  if alive st then
    match workers st !! k with
    | Some WRecv =>
        match chan_recv zero_job (jobs st) with
        | Some (job, true, c) =>
            Some (None, mkExec (ledger st) c (results st)
                               (<[k := WRun job]> (workers st)) (main st))
        | Some (_, false, c) =>
            Some (None, mkExec (ledger st) c (results st)
                               (<[k := WExit]> (workers st)) (main st))
        | None => None
        end
    | Some (WRun job) =>
        let '(us, e) := Updates (transaction job) (ledger st) in
        Some (Some (EvUpdates (index job) (ledger st)),
              mkExec (ledger st) (jobs st) (results st)
                     (<[k := WSend (mkResult us (index job) e)]> (workers st)) (main st))
    | Some (WSend r) =>
        match chan_send (results st) r with
        | SendOk c =>
            Some (None, mkExec (ledger st) (jobs st) c (<[k := WRecv]> (workers st)) (main st))
        | SendBlocked => None
        | SendPanic =>
            Some (None, mkExec (ledger st) (jobs st) (results st) (workers st) MPanic)
        end
    | Some WExit | None => None
    end
  else None.

Definition worker_exited (w : worker_pc) : bool :=
  match w with WExit => true | _ => false end.

(** [go func() { wg.Wait(); close(results) }()] *)
Definition closer_step (st : exec_state) : option (option event * exec_state) :=
  if alive st && negb (closed (results st)) && forallb worker_exited (workers st) then
    Some (None, mkExec (ledger st) (jobs st) (chan_close (results st)) (workers st) (main st))
  else None.

Inductive step : exec_state → option event → exec_state → Prop :=
| step_main st ev st' :
    main_step st = Some (ev, st') → step st ev st'
| step_worker k st ev st' :
    worker_step k st = Some (ev, st') → step st ev st'
| step_closer st ev st' :
    closer_step st = Some (ev, st') → step st ev st'.

(** Runs, with the events they produce. *)
Inductive steps : exec_state → list event → exec_state → Prop :=
| steps_nil st : steps st [] st
| steps_snoc st tr st' ev st'' :
    steps st tr st' → step st' ev st'' → steps st (tr ++ option_list ev) st''.

(** [ExecuteBlock] returns [ret] and leaves the ledger in [state']: some run
    reaches the [return], and the slice handed out lists the accounts in
    some order. *)
Definition ExecuteBlock (block : Block) (state : InMemoryAccountState) (numWorkers : Z)
    (state' : InMemoryAccountState) (ret : list AccountValue * error) : Prop :=
  ∃ tr st snap, steps (ExecuteBlock_init block state numWorkers) tr st
                ∧ main st = MReturn (snap, ret.2)
                ∧ ret.1 ≡ₚ snap
                ∧ state' = ledger st.

(** A deterministic schedule: the caller when it can move, else the first
    worker that can, else the closing goroutine. *)
Fixpoint first_worker (ks : list nat) (st : exec_state) : option (option event * exec_state) :=
  match ks with
  | [] => None
  | k :: ks' =>
      match worker_step k st with
      | Some r => Some r
      | None => first_worker ks' st
      end
  end.

Definition sched (st : exec_state) : option (option event * exec_state) :=
  match main_step st with
  | Some r => Some r
  | None =>
      match first_worker (seq 0 (length (workers st))) st with
      | Some r => Some r
      | None => closer_step st
      end
  end.

Fixpoint run (fuel : nat) (st : exec_state) : list event * exec_state :=
  match fuel with
  | O => ([], st)
  | S fuel' =>
      match sched st with
      | Some (ev, st') => let '(tr, st'') := run fuel' st' in (option_list ev ++ tr, st'')
      | None => ([], st)
      end
  end.

(** ** [Start] as a transition system *)

Inductive start_pc :=
| SLoop (state : InMemoryAccountState) (rest : list Block)  (* head of the loop over the blocks *)
| SExec (st : exec_state) (rest : list Block)               (* inside [ExecuteBlock] *)
| SReturn (ret : list AccountValue * error).

Definition Start_init (blocks : list Block) (initialState : list AccountValue) : start_pc :=
  SLoop (NewInMemoryAccountState initialState) blocks.

Inductive start_step (numWorkers : Z) : start_pc → start_pc → Prop :=
| start_enter state block rest :
    start_step numWorkers (SLoop state (block :: rest))
               (SExec (ExecuteBlock_init block state numWorkers) rest)
| start_finish state :
    start_step numWorkers (SLoop state []) (SReturn (getSnapshot state, None))
| start_inside st ev st' rest :
    step st ev st' →
    start_step numWorkers (SExec st rest) (SExec st' rest)
| start_next st snap rest :
    main st = MReturn (snap, None) →
    start_step numWorkers (SExec st rest) (SLoop (ledger st) rest)
| start_fail st snap e rest :
    main st = MReturn (snap, Some e) →
    start_step numWorkers (SExec st rest) (SReturn ([], Some e)).

(** [Start] returns [ret]. *)
Definition Start (blocks : list Block) (initialState : list AccountValue) (numWorkers : Z)
    (ret : list AccountValue * error) : Prop :=
  ∃ snap, rtc (start_step numWorkers) (Start_init blocks initialState) (SReturn (snap, ret.2))
          ∧ ret.1 ≡ₚ snap.

(** The schedule of [sched], lifted to [Start]. *)
Definition start_sched (numWorkers : Z) (p : start_pc) : option start_pc :=
  match p with
  | SLoop state (block :: rest) => Some (SExec (ExecuteBlock_init block state numWorkers) rest)
  | SLoop state [] => Some (SReturn (getSnapshot state, None))
  | SExec st rest =>
      match main st with
      | MReturn (_, None) => Some (SLoop (ledger st) rest)
      | MReturn (_, Some e) => Some (SReturn ([], Some e))
      | _ => match sched st with
             | Some (_, st') => Some (SExec st' rest)
             | None => None
             end
      end
  | SReturn _ => None
  end.

Fixpoint start_run (numWorkers : Z) (fuel : nat) (p : start_pc) : start_pc :=
  match fuel with
  | O => p
  | S fuel' =>
      match start_sched numWorkers p with
      | Some p' => start_run numWorkers fuel' p'
      | None => p
      end
  end.

(** ** The sequential reference

    Written after the specification's strict pipeline: compute transaction
    [i] on the ledger as the transactions before it left it, commit its
    deltas unless it failed, go on with transaction [i + 1]. *)

Definition reference_tx (s : InMemoryAccountState) (tx : Transaction) : InMemoryAccountState :=
  match Updates tx s with
  | (us, None) => applyUpdates s us
  | (_, Some _) => s
  end.

Definition reference_block (s : InMemoryAccountState) (txs : list Transaction)
  : InMemoryAccountState :=
  fold_left reference_tx txs s.

Definition reference_chain (s : InMemoryAccountState) (blocks : list Block)
  : InMemoryAccountState :=
  fold_left (λ s b, reference_block s (Transactions b)) blocks s.

(** The events of the reference, transaction [i] first. *)
Fixpoint reference_trace (i : Z) (s : InMemoryAccountState) (txs : list Transaction)
  : list event :=
  match txs with
  | [] => []
  | tx :: rest =>
      EvUpdates i s
        :: match Updates tx s with
           | (us, None) => EvApply i us
           | (_, Some _) => EvSkip i
           end
        :: reference_trace (i + 1) (reference_tx s tx) rest
  end.

(** ** Invariant and termination measure of the executor *)

(** What [Updates] of [tx] hands back through a worker. *)
Definition result_of (tx : Transaction) (i : Z) (s : InMemoryAccountState) : txResult :=
  mkResult (Updates tx s).1 i (Updates tx s).2.

(** Where the one outstanding transaction [tx] of index [i] is, while the
    caller waits for its result: in [jobs], with a worker before or after
    its [Updates], or in [results].  [n] is the number of workers, [s] the
    ledger, [tr0] the events up to the dispatch. *)
Inductive in_flight (n : nat) (tx : Transaction) (i : Z) (s : InMemoryAccountState)
    (tr0 : list event)
  : list event → chan txJob → chan txResult → list worker_pc → Prop :=
| job_queued :
    in_flight n tx i s tr0 tr0
              (mkChan (Some (mkJob tx i)) false) make_chan (replicate n WRecv)
| job_taken k :
    (k < n)%nat →
    in_flight n tx i s tr0 tr0
              make_chan make_chan (<[k := WRun (mkJob tx i)]> (replicate n WRecv))
| result_held k :
    (k < n)%nat →
    in_flight n tx i s tr0 (tr0 ++ [EvUpdates i s])
              make_chan make_chan (<[k := WSend (result_of tx i s)]> (replicate n WRecv))
| result_queued :
    in_flight n tx i s tr0 (tr0 ++ [EvUpdates i s])
              make_chan (mkChan (Some (result_of tx i s)) false) (replicate n WRecv).

Definition exec_inv (txs : list Transaction) (s0 : InMemoryAccountState) (n : nat)
    (tr : list event) (st : exec_state) : Prop :=
  match main st with
  | MSend i rest =>
      ∃ done, txs = done ++ rest ∧ i = Z.of_nat (length done)
        ∧ ledger st = reference_block s0 done
        ∧ tr = reference_trace 0 s0 done
        ∧ jobs st = make_chan ∧ results st = make_chan
        ∧ workers st = replicate n WRecv
  | MRecv i rest =>
      ∃ done tx, txs = done ++ tx :: rest ∧ i = Z.of_nat (length done)
        ∧ ledger st = reference_block s0 done
        ∧ in_flight n tx i (ledger st) (reference_trace 0 s0 done) tr
                    (jobs st) (results st) (workers st)
  | MDrain =>
      ledger st = reference_block s0 txs
      ∧ tr = reference_trace 0 s0 txs
      ∧ jobs st = mkChan None true
      ∧ buf (results st) = None
      ∧ Forall (λ w, w = WRecv ∨ w = WExit) (workers st)
      ∧ (closed (results st) = true → Forall (eq WExit) (workers st))
  | MReturn ret =>
      ret = (getSnapshot (ledger st), None)
      ∧ ledger st = reference_block s0 txs
      ∧ tr = reference_trace 0 s0 txs
      ∧ closed (results st) = true
      ∧ Forall (eq WExit) (workers st)
  | MPanic => False
  end.

(** An upper bound on the number of steps a state has left. *)
Definition worker_weight (w : worker_pc) : nat :=
  match w with WRecv => 1 | WRun _ => 4 | WSend _ => 3 | WExit => 0 end.

Definition main_weight (m : main_pc) : nat :=
  match m with
  | MSend _ rest => 6 * length rest + 2
  | MRecv _ rest => 6 * length rest + 3
  | MDrain => 1
  | MReturn _ | MPanic => 0
  end.

Definition measure (st : exec_state) : nat :=
  if alive st then
    1 + main_weight (main st)
      + match buf (jobs st) with Some _ => 4 | None => 0 end
      + match buf (results st) with Some _ => 1 | None => 0 end
      + (if closed (results st) then 0 else 1)
      + sum_list (worker_weight <$> workers st)
  else 0.

Arguments measure : simpl never.

Definition exec_step (st st' : exec_state) : Prop := ∃ ev, step st ev st'.

Definition block_budget (numWorkers : Z) (block : Block) : nat :=
  measure (ExecuteBlock_init block (mkState ∅) numWorkers) + 2.

Definition start_measure (numWorkers : Z) (p : start_pc) : nat :=
  match p with
  | SLoop _ rest => 1 + sum_list (block_budget numWorkers <$> rest)
  | SExec st rest => 2 + measure st + sum_list (block_budget numWorkers <$> rest)
  | SReturn _ => 0
  end.

Definition start_inv (blocks : list Block) (initialState : list AccountValue)
    (numWorkers : Z) (p : start_pc) : Prop :=
  let s0 := NewInMemoryAccountState initialState in
  match p with
  | SLoop s rest => ∃ done, blocks = done ++ rest ∧ s = reference_chain s0 done
  | SExec st rest =>
      ∃ done block tr, blocks = done ++ block :: rest
        ∧ steps (ExecuteBlock_init block (reference_chain s0 done) numWorkers) tr st
  | SReturn ret => ret = (getSnapshot (reference_chain s0 blocks), None)
  end.

(** A program that always returns: no run from [x] is infinite, and a run
    can stop only at a state that [final] accepts. *)
Definition always_returns {A : Type} (R : relation A) (final : A → Prop) (x : A) : Prop :=
  sn R x ∧ ∀ y, rtc R x y → final y ∨ red R y.

Definition returned (st : exec_state) : Prop :=
  ∃ snap, main st = MReturn (snap, None).

Definition start_returned (p : start_pc) : Prop :=
  ∃ snap, p = SReturn (snap, None).


(** ** The ledger under its lock

    [applyUpdates] runs its loop between [s.mu.Lock()] and the deferred
    [s.mu.Unlock()]; [GetAccount] and [getSnapshot] read between
    [s.mu.RLock()] and the deferred [s.mu.RUnlock()].  Goroutines that call
    them on one ledger interleave at the granularity of one lock operation,
    one map write or one map read. *)

(** [sync.RWMutex]: whether a writer holds it, and how many readers do.
    [Lock] waits for both to be clear, [RLock] for the writer. *)
Record rwmutex := mkMutex { writer : bool; readers : nat }.

Inductive thread :=
| ApplyLock (updates : list AccountUpdate)               (* [applyUpdates], before [Lock] *)
| ApplyLoop (updates : list AccountUpdate) (i : nat)     (* in its loop, at index [i] *)
| ApplyDone                                              (* after [Unlock] *)
| GetLock (name : string)                                (* [GetAccount], before [RLock] *)
| GetRead (name : string)                                (* before [s.accounts[name]] *)
| GetUnlock (v : AccountValue)                           (* value built, before [RUnlock] *)
| GetDone (v : AccountValue)                             (* returned [v] *)
| SnapLock                                               (* [getSnapshot], before [RLock] *)
| SnapLoop (i : nat) (result : list AccountValue)        (* in its loop, [i] entries read *)
| SnapUnlock (result : list AccountValue)                (* before [RUnlock] *)
| SnapDone (result : list AccountValue).                 (* returned [result] *)

Record locked_state := mkLocked {
  l_state : InMemoryAccountState;
  l_mu : rwmutex;
  l_threads : list thread
}.

(** One step of goroutine [k]; [None] when it waits for the lock or is done. *)
Definition thread_step (k : nat) (st : locked_state) : option locked_state :=
  let s := l_state st in
  let mu := l_mu st in
  let ts := l_threads st in
  match ts !! k with
  | Some (ApplyLock updates) =>
      if negb (writer mu) && (readers mu =? 0)%nat then
        Some (mkLocked s (mkMutex true (readers mu)) (<[k := ApplyLoop updates 0]> ts))
      else None
  | Some (ApplyLoop updates i) =>
      match updates !! i with
      | Some update =>
          Some (mkLocked (mkState (apply_update (accounts s) update)) mu
                         (<[k := ApplyLoop updates (S i)]> ts))
      | None =>
          Some (mkLocked s (mkMutex false (readers mu)) (<[k := ApplyDone]> ts))
      end
  | Some (GetLock name) =>
      if writer mu then None
      else Some (mkLocked s (mkMutex false (S (readers mu))) (<[k := GetRead name]> ts))
  | Some (GetRead name) =>
      Some (mkLocked s mu (<[k := GetUnlock (IM_GetAccount s name)]> ts))
  | Some (GetUnlock v) =>
      Some (mkLocked s (mkMutex (writer mu) (pred (readers mu))) (<[k := GetDone v]> ts))
  | Some SnapLock =>
      if writer mu then None
      else Some (mkLocked s (mkMutex false (S (readers mu))) (<[k := SnapLoop 0 []]> ts))
  | Some (SnapLoop i result) =>
      match getSnapshot s !! i with
      | Some a => Some (mkLocked s mu (<[k := SnapLoop (S i) (result ++ [a])]> ts))
      | None => Some (mkLocked s mu (<[k := SnapUnlock result]> ts))
      end
  | Some (SnapUnlock result) =>
      Some (mkLocked s (mkMutex (writer mu) (pred (readers mu))) (<[k := SnapDone result]> ts))
  | Some ApplyDone | Some (GetDone _) | Some (SnapDone _) | None => None
  end.

Definition locked_step (st st' : locked_state) : Prop :=
  ∃ k, thread_step k st = Some st'.

(** Goroutines that have not started their call yet. *)
Definition starting (t : thread) : bool :=
  match t with ApplyLock _ | GetLock _ | SnapLock => true | _ => false end.

Definition locked_init (s : InMemoryAccountState) (pool : list thread) : locked_state :=
  mkLocked s (mkMutex false 0) pool.

(** A run under a given schedule: the goroutine to move at each turn (a
    goroutine that cannot move leaves the state as it is). *)
Fixpoint locked_run (schedule : list nat) (st : locked_state) : locked_state :=
  match schedule with
  | [] => st
  | k :: schedule' =>
      match thread_step k st with
      | Some st' => locked_run schedule' st'
      | None => locked_run schedule' st
      end
  end.

(** The batches that a goroutine has still to commit. *)
Definition owed (t : thread) : list (list AccountUpdate) :=
  match t with ApplyLock us | ApplyLoop us _ => [us] | _ => [] end.

Definition holds_write (t : thread) : nat :=
  match t with ApplyLoop _ _ => 1 | _ => 0 end.

Definition holds_read (t : thread) : nat :=
  match t with GetRead _ | GetUnlock _ | SnapLoop _ _ | SnapUnlock _ => 1 | _ => 0 end.

(** What a reader has seen is the ledger with some of the batches applied,
    each of them in full. *)
Definition saw_whole_batches (s0 : InMemoryAccountState)
    (batches : list (list AccountUpdate)) (t : thread) : Prop :=
  match t with
  | GetUnlock v | GetDone v =>
      ∃ c, c ⊆+ batches ∧ v = GetAccount (commit_all s0 c) (AName v)
  | SnapUnlock l | SnapDone l =>
      ∃ c, c ⊆+ batches ∧ l = getSnapshot (commit_all s0 c)
  | _ => True
  end.

Definition thread_inv (s0 : InMemoryAccountState) (batches committed : list (list AccountUpdate))
    (s : InMemoryAccountState) (t : thread) : Prop :=
  match t with
  | ApplyLoop us i =>
      accounts s = fold_left apply_update (take i us) (accounts (commit_all s0 committed))
  | SnapLoop i result => result = take i (getSnapshot s)
  | _ => saw_whole_batches s0 batches t
  end.

Definition locked_inv (s0 : InMemoryAccountState) (batches : list (list AccountUpdate))
    (st : locked_state) : Prop :=
  ∃ committed,
    sum_list_with holds_read (l_threads st) = readers (l_mu st)
    ∧ sum_list_with holds_write (l_threads st) = (if writer (l_mu st) then 1 else 0)%nat
    ∧ (writer (l_mu st) = true → readers (l_mu st) = 0%nat)
    ∧ (writer (l_mu st) = false → l_state st = commit_all s0 committed)
    ∧ committed ++ (l_threads st ≫= owed) ≡ₚ batches
    ∧ Forall (thread_inv s0 batches committed (l_state st)) (l_threads st).

(** ** The first example of the test file *)

Definition ex_init : list AccountValue :=
  [mkValue "A" 20; mkValue "B" 30; mkValue "C" 40].

Definition ex_t1 : Transaction := transfer_tx (mkTransfer "A" "B" 5).
Definition ex_t2 : Transaction := transfer_tx (mkTransfer "B" "C" 10).
Definition ex_t3 : Transaction := transfer_tx (mkTransfer "B" "C" 30).

Definition ex_block : Block := mkBlock [ex_t1; ex_t2; ex_t3].

Definition ex_final : list AccountValue :=
  [mkValue "A" 15; mkValue "B" 25; mkValue "C" 50].

(** A transfer of nothing between two accounts that do not exist. *)
Definition ex_zero_transfer : Transaction := transfer_tx (mkTransfer "P" "Q" 0).

(** One writer and two readers on the ledger of the example. *)
Definition ex_updates : list AccountUpdate := [mkUpdate "A" (-5); mkUpdate "B" 5].
Definition ex_pool : list thread := [ApplyLock ex_updates; GetLock "B"; SnapLock].
Definition ex_schedule : list nat := [0; 0; 1; 2; 0; 0; 1; 2; 1; 2; 2; 2; 2; 2; 1]%nat.

(** ** The helpers of the test file *)

(** [compareResults]: the lengths agree, and every account of [b] has in
    the map built from [a] the balance it has in [b]. *)
Definition compareResults (a b : list AccountValue) : bool :=
  if negb (length a =? length b)%nat then false
  else
    let aMap := fold_left (λ m acc, <[AName acc := Balance acc]> m) a (∅ : gmap string Z) in
    forallb (λ acc, balance_of aMap (AName acc) =? Balance acc) b.

(** [verifyResults]: the messages it hands to [t.Errorf], in order. *)
Definition verifyResults (result : list AccountValue) (expected : gmap string Z)
  : list string :=
  (if negb (length result =? size expected)%nat then
     ["Expected " +:+ pretty (size expected) +:+ " accounts, got "
        +:+ pretty (length result)]
   else [])
  ++ (result ≫= λ acc,
        match expected !! AName acc with
        | None => ["Unexpected account " +:+ AName acc +:+ " in result"]
        | Some expectedBalance =>
            if negb (Balance acc =? expectedBalance) then
              ["Account " +:+ AName acc +:+ ": expected balance "
                 +:+ pretty expectedBalance +:+ ", got " +:+ pretty (Balance acc)]
            else []
        end).

(** ** Quantities that the further properties speak of *)

(** The balance that one iteration of [applyUpdates] stores. *)
Definition new_balance (currentBalance change : Z) : Z :=
  if 0 <=? change then to_uint (currentBalance + to_uint change)
  else
    let decrease := to_uint (to_int (- change)) in
    if currentBalance <? decrease then 0 else to_uint (currentBalance - decrease).

Definition sum_balances (l : list AccountValue) : Z :=
  foldr (λ a acc, Balance a + acc) 0 l.

(** All the money of the ledger. *)
Definition total_supply (s : InMemoryAccountState) : Z := sum_balances (getSnapshot s).

(** No balance is negative and the whole supply fits a [uint]. *)
Definition solvent (s : InMemoryAccountState) : Prop :=
  map_Forall (λ _ b, 0 <= b) (accounts s) ∧ total_supply s < uint_modulus.

(** A [transfer] of a value that is not negative. *)
Definition plain_transfer (tx : Transaction) : Prop :=
  ∃ t, tx = transfer_tx t ∧ 0 <= value t <= int_max.

(** A worker that holds a job or a result. *)
Definition busy (w : worker_pc) : bool :=
  match w with WRun _ | WSend _ => true | WRecv | WExit => false end.

(** What holds of the executor when it has no worker: nothing is written,
    nothing comes through [results], and the caller gets past its first
    receive only. *)
Definition exec_inv0 (txs : list Transaction) (s0 : InMemoryAccountState)
    (st : exec_state) : Prop :=
  workers st = [] ∧ ledger st = s0 ∧ buf (results st) = None
  ∧ match main st with
    | MSend i rest =>
        closed (jobs st) = false
        ∧ ((i = 0 ∧ rest = txs ∧ buf (jobs st) = None)
           ∨ (i = 1 ∧ ∃ tx, txs = tx :: rest ∧ buf (jobs st) = Some (mkJob tx 0)))
    | MRecv i rest =>
        closed (jobs st) = false
        ∧ i = 0 ∧ ∃ tx, txs = tx :: rest ∧ buf (jobs st) = Some (mkJob tx 0)
    | MDrain => (length txs ≤ 1)%nat
    | MReturn ret => (length txs ≤ 1)%nat ∧ ret = (getSnapshot s0, None)
    | MPanic => False
    end.

(** A goroutine whose call has returned. *)
Definition finished (t : thread) : bool :=
  match t with ApplyDone | GetDone _ | SnapDone _ => true | _ => false end.

(** ** The ledger *)

Section Ledger.

Implicit Types (m : gmap string Z) (s : InMemoryAccountState).
Implicit Types (u : AccountUpdate) (us : list AccountUpdate) (name : string).

Lemma to_uint_range x : is_uint (to_uint x).
Proof. unfold is_uint, to_uint, uint_modulus. apply Z.mod_pos_bound. lia. Qed.

Lemma to_uint_small x : is_uint x → to_uint x = x.
Proof. unfold is_uint, to_uint. intros H. by apply Z.mod_small. Qed.

(** [uint(-d)] is the magnitude of a negative [int], also for the least one. *)
Lemma decrease_magnitude d : is_int d → d < 0 → to_uint (to_int (- d)) = - d.
Proof.
  unfold is_int, int_min, int_max, to_uint, to_int, uint_modulus.
  change (2 ^ 64) with 18446744073709551616.
  change (2 ^ 63) with 9223372036854775808.
  intros Hd Hneg. Z.div_mod_to_equations. lia.
Qed.

Lemma applyUpdates_app s us1 us2 :
  applyUpdates s (us1 ++ us2) = applyUpdates (applyUpdates s us1) us2.
Proof. unfold applyUpdates. simpl. by rewrite fold_left_app. Qed.

Lemma applyUpdates_nil s : applyUpdates s [] = s.
Proof. by destruct s. Qed.

Lemma apply_update_lookup_ne m u name :
  Name u ≠ name → apply_update m u !! name = m !! name.
Proof.
  intros Hne. unfold apply_update.
  repeat case_match; by rewrite lookup_insert_ne.
Qed.

Lemma apply_update_balance m u :
  balance_of (apply_update m u) (Name u)
  = let currentBalance := balance_of m (Name u) in
    if 0 <=? BalanceChange u then to_uint (currentBalance + to_uint (BalanceChange u))
    else let decrease := to_uint (to_int (- BalanceChange u)) in
         if currentBalance <? decrease then 0 else to_uint (currentBalance - decrease).
Proof.
  unfold apply_update. cbv zeta.
  repeat case_match; unfold balance_of at 1; by rewrite lookup_insert_eq.
Qed.

Lemma apply_update_dom m u : dom (apply_update m u) = {[Name u]} ∪ dom m.
Proof. unfold apply_update. repeat case_match; by rewrite dom_insert_L. Qed.

Lemma fold_apply_update_dom us m :
  dom (fold_left apply_update us m) = dom m ∪ list_to_set (Name <$> us).
Proof.
  revert m. induction us as [|u us IH]; intros m; simpl.
  - set_solver.
  - rewrite IH, apply_update_dom. set_solver.
Qed.

Lemma fold_apply_update_lookup_ne us m name :
  name ∉ (Name <$> us) → fold_left apply_update us m !! name = m !! name.
Proof.
  revert m. induction us as [|u us IH]; intros m Hn; simpl; [done|].
  rewrite fmap_cons, not_elem_of_cons in Hn. destruct Hn as [Hne Hn].
  rewrite IH by done. by apply apply_update_lookup_ne.
Qed.

Lemma New_dom (init : list AccountValue) :
  dom (accounts (NewInMemoryAccountState init)) = list_to_set (AName <$> init).
Proof.
  unfold NewInMemoryAccountState. simpl.
  assert (∀ m, dom (fold_left (λ m acc, <[AName acc := Balance acc]> m) init m)
               = dom m ∪ list_to_set (AName <$> init)) as Hgen.
  { induction init as [|a init IH]; intros m; simpl.
    - set_solver.
    - rewrite IH, dom_insert_L. set_solver. }
  rewrite Hgen. set_solver.
Qed.

Lemma commit_all_dom batches s :
  dom (accounts (commit_all s batches))
  = dom (accounts s) ∪ list_to_set (Name <$> concat batches).
Proof.
  revert s. induction batches as [|b bs IH]; intros s; simpl.
  - set_solver.
  - unfold commit_all in *. simpl. rewrite IH. simpl.
    rewrite fold_apply_update_dom, fmap_app, list_to_set_app_L. set_solver.
Qed.

Lemma getSnapshot_names s name :
  name ∈ (AName <$> getSnapshot s) ↔ name ∈ dom (accounts s).
Proof.
  unfold getSnapshot. rewrite <- list_fmap_compose.
  rewrite elem_of_dom, list_elem_of_fmap. split.
  - intros [[k v] [-> Hin]]. simpl. apply elem_of_map_to_list in Hin. eauto.
  - intros [v Hv]. exists (name, v). split; [done|]. by apply elem_of_map_to_list.
Qed.

Lemma getSnapshot_elem s (a : AccountValue) :
  a ∈ getSnapshot s ↔ accounts s !! AName a = Some (Balance a).
Proof.
  unfold getSnapshot. rewrite list_elem_of_fmap. split.
  - intros [[k v] [-> Hin]]. simpl. by apply elem_of_map_to_list in Hin.
  - intros Hv. exists (AName a, Balance a). split; [by destruct a|].
    by apply elem_of_map_to_list.
Qed.

End Ledger.

(** ** The executor: reference, measure, schedule *)

Section Reference.

Implicit Types (s : InMemoryAccountState) (txs : list Transaction).

Lemma reference_block_app s txs1 txs2 :
  reference_block s (txs1 ++ txs2) = reference_block (reference_block s txs1) txs2.
Proof. unfold reference_block. by rewrite fold_left_app. Qed.

Lemma reference_block_snoc s txs tx :
  reference_block s (txs ++ [tx]) = reference_tx (reference_block s txs) tx.
Proof. by rewrite reference_block_app. Qed.

Lemma reference_chain_snoc s (blocks : list Block) (b : Block) :
  reference_chain s (blocks ++ [b])
  = reference_block (reference_chain s blocks) (Transactions b).
Proof. unfold reference_chain. by rewrite fold_left_app. Qed.

Lemma reference_trace_app i s txs1 txs2 :
  reference_trace i s (txs1 ++ txs2)
  = reference_trace i s txs1
    ++ reference_trace (i + Z.of_nat (length txs1)) (reference_block s txs1) txs2.
Proof.
  revert i s. induction txs1 as [|tx txs1 IH]; intros i s; simpl.
  - by rewrite Z.add_0_r.
  - rewrite IH.
    by replace (i + Z.of_nat (S (length txs1))) with (i + 1 + Z.of_nat (length txs1)) by lia.
Qed.

Lemma reference_trace_length i s txs :
  length (reference_trace i s txs) = (2 * length txs)%nat.
Proof.
  revert i s. induction txs as [|tx txs IH]; intros i s; simpl; [done|].
  rewrite IH. lia.
Qed.

(** Event [2 k] of the reference is [Updates] of transaction [k] on the
    ledger the first [k] transactions produce; event [2 k + 1] is its
    commit, or its dismissal when it failed. *)
Lemma reference_trace_lookup s txs (k : nat) tx :
  txs !! k = Some tx →
  let view := reference_block s (take k txs) in
  reference_trace 0 s txs !! (2 * k)%nat = Some (EvUpdates (Z.of_nat k) view)
  ∧ reference_trace 0 s txs !! (2 * k + 1)%nat
    = Some (match Updates tx view with
            | (us, None) => EvApply (Z.of_nat k) us
            | (_, Some _) => EvSkip (Z.of_nat k)
            end).
Proof.
  intros Hk view.
  rewrite <- (take_drop_middle txs k tx Hk) at 1 2.
  rewrite !reference_trace_app. fold view.
  assert (length (take k txs) = k) as Hlen.
  { rewrite length_take. apply lookup_lt_Some in Hk. lia. }
  rewrite Hlen. simpl.
  assert (length (reference_trace 0 s (take k txs)) = (2 * k)%nat) as Htl.
  { by rewrite reference_trace_length, Hlen. }
  split.
  - rewrite lookup_app_r by lia. by replace (2 * k - _)%nat with 0%nat by lia.
  - rewrite lookup_app_r by lia. by replace (2 * k + 1 - _)%nat with 1%nat by lia.
Qed.

End Reference.

Section Measure.

Lemma sum_weight_insert (ws : list worker_pc) (k : nat) (w w' : worker_pc) :
  ws !! k = Some w →
  (sum_list (worker_weight <$> <[k := w']> ws) + worker_weight w
   = sum_list (worker_weight <$> ws) + worker_weight w')%nat.
Proof.
  revert k. induction ws as [|x ws IH]; intros [|k] Hk; simplify_eq/=; [lia|].
  specialize (IH k Hk). lia.
Qed.

(** Every step uses up some of the measure: no run is infinite, whatever
    the number of workers. *)
Lemma step_decreases st ev st' : step st ev st' → (measure st' < measure st)%nat.
Proof.
  destruct st as [l j r ws m].
  intros Hstep. inversion Hstep as [? ? ? H | k ? ? ? H | ? ? ? H]; subst; clear Hstep.
  - unfold main_step in H. simpl in H.
    destruct m as [i [|tx rest]|i rest| | |]; simplify_eq/=.
    + unfold measure. simpl. destruct (buf j), (buf r), (closed r); lia.
    + unfold chan_send in H. destruct j as [[jb|] [|]]; simplify_eq/=;
        unfold measure; simpl; destruct (buf r), (closed r); lia.
    + unfold chan_recv in H. destruct r as [[rb|] [|]]; simpl in H;
        try destruct (err rb); simplify_eq/=; unfold measure; simpl;
        destruct (buf j); lia.
    + unfold chan_recv in H. destruct r as [[rb|] [|]]; simplify_eq/=;
        unfold measure; simpl; destruct (buf j); lia.
  - unfold worker_step in H. simpl in H.
    destruct (alive (mkExec l j r ws m)) eqn:Halive; [|done].
    destruct (ws !! k) as [w|] eqn:Hk; [|done].
    unfold measure. rewrite Halive.
    destruct w as [|job|res|].
    + unfold chan_recv in H. destruct j as [[jb|] [|]]; simplify_eq/=.
      * pose proof (sum_weight_insert ws k WRecv (WRun jb) Hk) as Hs. simpl in Hs.
        assert (alive (mkExec l (mkChan None true) r (<[k:=WRun jb]> ws) m) = true) as ->
          by done. simpl. lia.
      * pose proof (sum_weight_insert ws k WRecv (WRun jb) Hk) as Hs. simpl in Hs.
        assert (alive (mkExec l (mkChan None false) r (<[k:=WRun jb]> ws) m) = true) as ->
          by done. simpl. lia.
      * pose proof (sum_weight_insert ws k WRecv WExit Hk) as Hs. simpl in Hs.
        assert (alive (mkExec l (mkChan None true) r (<[k:=WExit]> ws) m) = true) as ->
          by done. simpl. lia.
    + simpl in H. destruct (Updates (transaction job) l) as [us e]. simplify_eq/=.
      pose proof (sum_weight_insert ws k (WRun job) (WSend (mkResult us (index job) e)) Hk)
        as Hs. simpl in Hs.
      match goal with |- context [alive ?x] => assert (alive x = true) as -> by done end.
      simpl. lia.
    + unfold chan_send in H. destruct r as [[rb|] [|]]; simplify_eq/=.
      * lia.
      * lia.
      * pose proof (sum_weight_insert ws k (WSend res) WRecv Hk) as Hs. simpl in Hs.
        match goal with |- context [alive ?x] => assert (alive x = true) as -> by done end.
        simpl. lia.
    + done.
  - unfold closer_step in H. simpl in H.
    destruct (alive (mkExec l j r ws m)) eqn:Halive; [|done].
    destruct (closed r) eqn:Hc; [done|]. simpl in H.
    destruct (forallb worker_exited ws); simplify_eq/=.
    unfold measure. rewrite Halive.
    match goal with |- context [alive ?x] => assert (alive x = true) as -> by done end.
    simpl. rewrite Hc. lia.
Qed.

Lemma exec_step_sn st : sn exec_step st.
Proof.
  apply (Acc_impl (λ a b, (measure a < measure b)%nat)).
  - apply (wf_projected lt measure); [done | apply lt_wf].
  - intros a b [ev Hstep]. by apply step_decreases in Hstep.
Qed.

Lemma measure_init_state block s s' numWorkers :
  measure (ExecuteBlock_init block s numWorkers)
  = measure (ExecuteBlock_init block s' numWorkers).
Proof. done. Qed.

Lemma start_step_decreases numWorkers p p' :
  start_step numWorkers p p' →
  (start_measure numWorkers p' < start_measure numWorkers p)%nat.
Proof.
  intros Hs.
  inversion Hs as [s b rest | s | st ev st' rest Hstep | st snap rest Hm | st snap e rest Hm];
    subst; clear Hs; cbn -[measure block_budget].
  - unfold block_budget.
    rewrite (measure_init_state b s (mkState ∅)). lia.
  - lia.
  - apply step_decreases in Hstep. lia.
  - lia.
  - lia.
Qed.

Lemma start_step_sn numWorkers p : sn (start_step numWorkers) p.
Proof.
  apply (Acc_impl (λ a b, (start_measure numWorkers a < start_measure numWorkers b)%nat)).
  - apply (wf_projected lt (start_measure numWorkers)); [done | apply lt_wf].
  - intros a b Hstep. by apply start_step_decreases.
Qed.

End Measure.

(** ** The executor with at least one worker *)

Section Invariant.

Variables (txs : list Transaction) (s0 : InMemoryAccountState) (numWorkers : Z).
Hypothesis HW : 1 <= numWorkers.

Local Abbreviation n := (Z.to_nat numWorkers).
Local Abbreviation inv := (exec_inv txs s0 n).

Lemma pool_not_exited : forallb worker_exited (replicate n WRecv) = false.
Proof. destruct n eqn:E; [lia|done]. Qed.

Lemma pool_not_exited_insert k w :
  worker_exited w = false →
  forallb worker_exited (<[k := w]> (replicate n WRecv)) = false.
Proof. intros Hw. destruct n eqn:E; [lia|]. destruct k; simpl; by rewrite ?Hw. Qed.

Lemma exec_inv_init : inv [] (ExecuteBlock_init (mkBlock txs) s0 numWorkers).
Proof. unfold exec_inv. simpl. by exists []. Qed.

Lemma commit_matches_reference tx (s : InMemoryAccountState) :
  match err (result_of tx 0 s) with
  | None => ApplyUpdates s (updates (result_of tx 0 s))
  | Some _ => s
  end = reference_tx s tx.
Proof. unfold reference_tx, result_of. simpl. by destruct (Updates tx s) as [us [e|]]. Qed.

Lemma exec_inv_step tr st ev st' :
  inv tr st → step st ev st' → inv (tr ++ option_list ev) st'.
Proof.
  destruct st as [l j r ws m]. unfold exec_inv at 1. simpl. intros Hinv Hstep.
  destruct m as [i rest|i rest| |ret|].
  - (* the caller is about to dispatch *)
    destruct Hinv as (done & Htxs & Hi & Hl & Htr & Hj & Hr & Hw). subst.
    inversion Hstep as [? ? ? H | k ? ? ? H | ? ? ? H]; subst; clear Hstep.
    + unfold main_step in H. simpl in H. destruct rest as [|tx rest]; simplify_eq/=.
      * unfold exec_inv. simpl. rewrite !app_nil_r.
        repeat split; try done.
        by apply Forall_replicate; left.
      * unfold exec_inv. simpl. rewrite app_nil_r. exists done, tx.
        repeat split; try done. constructor.
    + unfold worker_step in H. simpl in H.
      destruct (replicate n WRecv !! k) as [w|] eqn:E; [|done].
      apply lookup_replicate in E as [-> _]. done.
    + unfold closer_step in H. simpl in H. by rewrite pool_not_exited in H.
  - (* the caller waits for the result *)
    destruct Hinv as (done & tx & Htxs & Hi & Hl & Hfl). subst.
    inversion Hfl as [Ht Hj Hr Hw | k Hk Ht Hj Hr Hw | k Hk Ht Hj Hr Hw | Ht Hj Hr Hw];
      subst; clear Hfl;
      inversion Hstep as [? ? ? H | k' ? ? ? H | ? ? ? H]; subst; clear Hstep.
    + done.
    + unfold worker_step in H. simpl in H.
      destruct (replicate n WRecv !! k') as [w|] eqn:E; [|done].
      apply lookup_replicate in E as [-> Hk']. simplify_eq/=.
      unfold exec_inv. simpl. rewrite app_nil_r. exists done, tx.
      repeat split; try done. by constructor.
    + unfold closer_step in H. simpl in H. by rewrite pool_not_exited in H.
    + done.
    + unfold worker_step in H. simpl in H.
      destruct (decide (k = k')) as [<-|Hne].
      * rewrite list_lookup_insert_eq in H by by rewrite length_replicate.
        simpl in H. destruct (Updates tx (reference_block s0 done)) as [us e] eqn:EU.
        simplify_eq/=. unfold exec_inv. simpl. exists done, tx.
        repeat split; try done.
        rewrite list_insert_insert_eq.
        replace (mkResult us (Z.of_nat (length done)) e)
          with (result_of tx (Z.of_nat (length done)) (reference_block s0 done))
          by (unfold result_of; by rewrite EU).
        by constructor.
      * rewrite list_lookup_insert_ne in H by done.
        destruct (replicate n WRecv !! k') as [w|] eqn:E; [|done].
        apply lookup_replicate in E as [-> Hk']. done.
    + unfold closer_step in H. simpl in H. by rewrite pool_not_exited_insert in H.
    + done.
    + unfold worker_step in H. simpl in H.
      destruct (decide (k = k')) as [<-|Hne].
      * rewrite list_lookup_insert_eq in H by by rewrite length_replicate.
        simplify_eq/=. unfold exec_inv. simpl. rewrite app_nil_r. exists done, tx.
        repeat split; try done.
        rewrite list_insert_insert_eq, insert_replicate. constructor.
      * rewrite list_lookup_insert_ne in H by done.
        destruct (replicate n WRecv !! k') as [w|] eqn:E; [|done].
        apply lookup_replicate in E as [-> Hk']. done.
    + unfold closer_step in H. simpl in H. by rewrite pool_not_exited_insert in H.
    + unfold main_step in H. simpl in H.
      pose proof (commit_matches_reference tx (reference_block s0 done)) as Hc.
      simpl in Hc.
      destruct (Updates tx (reference_block s0 done)) as [us e] eqn:EU;
        destruct e as [e|]; simplify_eq/=; unfold exec_inv; simpl;
        exists (done ++ [tx]); rewrite <- app_assoc, length_app, reference_block_snoc,
          reference_trace_app; simpl; rewrite EU, <- app_assoc; simpl;
        (repeat split; try done; try lia).
    + unfold worker_step in H. simpl in H.
      destruct (replicate n WRecv !! k') as [w|] eqn:E; [|done].
      apply lookup_replicate in E as [-> Hk']. done.
    + unfold closer_step in H. simpl in H. by rewrite pool_not_exited in H.
  - (* the caller drains [results] *)
    destruct Hinv as (Hl & Htr & Hj & Hr & Hw & Hc). subst.
    inversion Hstep as [? ? ? H | k ? ? ? H | ? ? ? H]; subst; clear Hstep.
    + unfold main_step, chan_recv in H. simpl in H. rewrite Hr in H.
      destruct (closed r) eqn:Ec; simplify_eq/=.
      unfold exec_inv. simpl. rewrite app_nil_r. repeat split; auto.
    + unfold worker_step in H. simpl in H.
      destruct (ws !! k) as [w|] eqn:E; [|done].
      pose proof (proj1 (Forall_lookup _ _) Hw k w E) as [-> | ->]; [|done].
      simplify_eq/=. unfold exec_inv. simpl. rewrite app_nil_r.
      repeat split; try done.
      * apply Forall_insert; auto.
      * intros Hcl. specialize (Hc Hcl).
        by pose proof (proj1 (Forall_lookup _ _) Hc k _ E).
    + unfold closer_step in H. simpl in H.
      destruct (closed r) eqn:Ec; [done|]. simpl in H.
      destruct (forallb worker_exited ws) eqn:Ef; simplify_eq/=.
      unfold exec_inv. simpl. rewrite app_nil_r. repeat split; try done.
      intros _. apply Forall_forall. intros w Hin.
      apply Is_true_true_2, forallb_True in Ef.
      rewrite Forall_forall in Ef. specialize (Ef w Hin). by destruct w.
  - (* [ExecuteBlock] has returned *)
    destruct Hinv as (Hret & Hl & Htr & Hc & Hw). subst.
    inversion Hstep as [? ? ? H | k ? ? ? H | ? ? ? H]; subst; clear Hstep.
    + done.
    + unfold worker_step in H. simpl in H.
      destruct (ws !! k) as [w|] eqn:E; [|done].
      by pose proof (proj1 (Forall_lookup _ _) Hw k w E) as <-.
    + unfold closer_step in H. simpl in H. by rewrite Hc in H.
  - done.
Qed.

Lemma exec_inv_steps tr st :
  steps (ExecuteBlock_init (mkBlock txs) s0 numWorkers) tr st → inv tr st.
Proof.
  remember (ExecuteBlock_init (mkBlock txs) s0 numWorkers) as st0 eqn:E.
  induction 1 as [st|st tr st' ev st'' Hsteps IH Hstep]; subst.
  - apply exec_inv_init.
  - eapply exec_inv_step; eauto.
Qed.

(** A state of a run that has not returned can take a step. *)
Lemma exec_inv_progress tr st : inv tr st → returned st ∨ red exec_step st.
Proof.
  destruct st as [l j r ws m]. unfold exec_inv. simpl. intros Hinv.
  destruct m as [i rest|i rest| |ret|].
  - right. destruct Hinv as (done & Htxs & Hi & Hl & Htr & Hj & Hr & Hw). subst.
    destruct rest as [|tx rest]; eexists; eexists; apply step_main; reflexivity.
  - right. destruct Hinv as (done & tx & Htxs & Hi & Hl & Hfl).
    inversion Hfl as [Ht Hj Hr Hw | k Hk Ht Hj Hr Hw | k Hk Ht Hj Hr Hw | Ht Hj Hr Hw];
      subst; clear Hfl.
    + eexists; eexists. apply (step_worker 0). unfold worker_step. simpl.
      rewrite lookup_replicate_2 by lia. reflexivity.
    + destruct (Updates tx (reference_block s0 done)) as [us e] eqn:EU.
      eexists; eexists. apply (step_worker k). unfold worker_step. simpl.
      rewrite list_lookup_insert_eq by by rewrite length_replicate.
      simpl. rewrite EU. reflexivity.
    + eexists; eexists. apply (step_worker k). unfold worker_step. simpl.
      rewrite list_lookup_insert_eq by by rewrite length_replicate.
      reflexivity.
    + destruct (Updates tx (reference_block s0 done)) as [us [e|]] eqn:EU;
        eexists; eexists; apply step_main; unfold main_step, result_of; simpl;
        rewrite EU; reflexivity.
  - right. destruct Hinv as (Hl & Htr & Hj & Hr & Hw & Hc). subst.
    destruct (closed r) eqn:Ec.
    + eexists; eexists. apply step_main. unfold main_step, chan_recv. simpl.
      rewrite Hr, Ec. reflexivity.
    + destruct (forallb worker_exited ws) eqn:Ef.
      * eexists; eexists. apply step_closer. unfold closer_step. simpl.
        rewrite Ec, Ef. reflexivity.
      * assert (∃ k, ws !! k = Some WRecv) as [k Hk].
        { clear -Hw Ef. induction Hw as [|w ws [-> | ->] Hws IH]; simpl in Ef; [done| |].
          - by exists 0%nat.
          - destruct (IH Ef) as [k Hk]. by exists (S k). }
        eexists; eexists. apply (step_worker k). unfold worker_step. simpl.
        rewrite Hk. reflexivity.
  - left. destruct Hinv as (-> & _). by eexists.
  - done.
Qed.

End Invariant.

Section Runs.

Lemma steps_cons st ev st1 tr st2 :
  step st ev st1 → steps st1 tr st2 → steps st (option_list ev ++ tr) st2.
Proof.
  intros Hstep. induction 1 as [st1|st1 tr st2 ev' st3 Hsteps IH Hstep'].
  - rewrite app_nil_r. apply (steps_snoc st [] st ev st1); [constructor | done].
  - rewrite app_assoc. eapply steps_snoc; eauto.
Qed.

Lemma rtc_exec_steps st st' : rtc exec_step st st' ↔ ∃ tr, steps st tr st'.
Proof.
  split.
  - revert st'. apply (rtc_ind_r (λ z, ∃ tr, steps st tr z)).
    + exists []. constructor.
    + intros y z _ [ev Hstep] [tr Hsteps]. eexists. eapply steps_snoc; eauto.
  - intros [tr H]. induction H as [|st tr st' ev st'' _ IH Hstep]; [done|].
    eapply rtc_r; [done|]. by exists ev.
Qed.

Lemma first_worker_sound ks st ev st' :
  first_worker ks st = Some (ev, st') → step st ev st'.
Proof.
  induction ks as [|k ks IH]; simpl; [done|].
  destruct (worker_step k st) as [r|] eqn:E; [|done].
  intros [= ->]. by apply (step_worker k).
Qed.

Lemma sched_sound st ev st' : sched st = Some (ev, st') → step st ev st'.
Proof.
  unfold sched. destruct (main_step st) as [r|] eqn:Em.
  - intros [= ->]. by apply step_main.
  - destruct (first_worker _ st) as [r|] eqn:Ew.
    + intros [= ->]. by eapply first_worker_sound.
    + apply step_closer.
Qed.

Lemma run_sound fuel st : steps st (run fuel st).1 (run fuel st).2.
Proof.
  revert st. induction fuel as [|fuel IH]; intros st; simpl; [constructor|].
  destruct (sched st) as [[ev st']|] eqn:E; [|constructor].
  specialize (IH st'). destruct (run fuel st') as [tr st'']. simpl in *.
  eapply steps_cons; [by apply sched_sound|done].
Qed.

Lemma start_sched_sound numWorkers p p' :
  start_sched numWorkers p = Some p' → start_step numWorkers p p'.
Proof.
  destruct p as [s [|b rest]|st rest|ret]; simpl; try (intros [= <-]; constructor).
  destruct (main st) as [| | |[snap [e|]]|] eqn:Em;
    try (destruct (sched st) as [[ev st']|] eqn:Es; [|done]; intros [= <-];
         eapply start_inside; by apply sched_sound).
  - intros [= <-]. by eapply start_fail.
  - intros [= <-]. by eapply start_next.
Qed.

Lemma start_run_sound numWorkers fuel p :
  rtc (start_step numWorkers) p (start_run numWorkers fuel p).
Proof.
  revert p. induction fuel as [|fuel IH]; intros p; simpl; [done|].
  destruct (start_sched numWorkers p) as [p'|] eqn:E; [|done].
  eapply rtc_l; [by apply start_sched_sound|apply IH].
Qed.

(** A program that always returns has a run that returns. *)
Lemma always_returns_reaches {A : Type} (R : relation A) (final : A → Prop) (x : A) :
  always_returns R final x → ∃ y, rtc R x y ∧ final y.
Proof.
  intros [Hsn Hprog]. induction Hsn as [x _ IH].
  destruct (Hprog x (rtc_refl _ _)) as [Hf|[z Hz]].
  - by exists x.
  - destruct (IH z Hz) as (y & Hy & Hfy).
    + intros y Hy. apply Hprog. by eapply rtc_l.
    + exists y. split; [by eapply rtc_l|done].
Qed.

End Runs.

Section Chain.

Variables (blocks : list Block) (initialState : list AccountValue) (numWorkers : Z).
Hypothesis HW : 1 <= numWorkers.

Local Abbreviation s0 := (NewInMemoryAccountState initialState).
Local Abbreviation sinv := (start_inv blocks initialState numWorkers).

Lemma block_eta (b : Block) : b = mkBlock (Transactions b).
Proof. by destruct b. Qed.

Lemma exec_inv_reachable (block : Block) (s : InMemoryAccountState) tr st :
  steps (ExecuteBlock_init block s numWorkers) tr st →
  exec_inv (Transactions block) s (Z.to_nat numWorkers) tr st.
Proof. rewrite (block_eta block) at 1. by apply exec_inv_steps. Qed.

Lemma start_inv_init : sinv (Start_init blocks initialState).
Proof. simpl. by exists []. Qed.

Lemma start_inv_step p p' : sinv p → start_step numWorkers p p' → sinv p'.
Proof.
  intros Hinv Hs.
  inversion Hs as [s b rest | s | st ev st' rest Hstep | st snap rest Hm | st snap e rest Hm];
    subst; clear Hs; simpl in *.
  - destruct Hinv as (done & -> & ->). exists done, b, []. split; [done|constructor].
  - destruct Hinv as (done & -> & ->). by rewrite app_nil_r.
  - destruct Hinv as (done & b & tr & -> & Hsteps). exists done, b, (tr ++ option_list ev).
    split; [done|]. by eapply steps_snoc.
  - destruct Hinv as (done & b & tr & -> & Hsteps).
    apply exec_inv_reachable in Hsteps. unfold exec_inv in Hsteps. rewrite Hm in Hsteps.
    destruct Hsteps as (_ & Hl & _).
    exists (done ++ [b]). rewrite <- app_assoc. split; [done|].
    by rewrite reference_chain_snoc.
  - destruct Hinv as (done & b & tr & -> & Hsteps).
    apply exec_inv_reachable in Hsteps. unfold exec_inv in Hsteps. rewrite Hm in Hsteps.
    by destruct Hsteps as (? & _).
Qed.

Lemma start_inv_rtc p : rtc (start_step numWorkers) (Start_init blocks initialState) p → sinv p.
Proof.
  revert p. apply (rtc_ind_r sinv).
  - apply start_inv_init.
  - intros y z _ Hstep Hy. by eapply start_inv_step.
Qed.

Lemma start_inv_progress p : sinv p → start_returned p ∨ red (start_step numWorkers) p.
Proof.
  destruct p as [s [|b rest]|st rest|ret]; simpl.
  - intros _. right. eexists. constructor.
  - intros _. right. eexists. constructor.
  - intros (done & b & tr & -> & Hsteps). right.
    apply exec_inv_reachable in Hsteps.
    destruct (exec_inv_progress _ _ _ HW _ _ Hsteps) as [[snap Hm]|[st' [ev Hstep]]].
    + eexists. by eapply start_next.
    + eexists. by eapply start_inside.
  - intros ->. left. by eexists.
Qed.

Lemma ExecuteBlock_always_returns (block : Block) (s : InMemoryAccountState) :
  always_returns exec_step returned (ExecuteBlock_init block s numWorkers).
Proof.
  split; [apply exec_step_sn|].
  intros st Hrtc. apply rtc_exec_steps in Hrtc as [tr Hsteps].
  apply exec_inv_reachable in Hsteps. by eapply exec_inv_progress.
Qed.

Lemma Start_always_returns :
  always_returns (start_step numWorkers) start_returned (Start_init blocks initialState).
Proof.
  split; [apply start_step_sn|].
  intros p Hrtc. by apply start_inv_progress, start_inv_rtc.
Qed.

(** What [ExecuteBlock] returns, and what it leaves. *)
Lemma ExecuteBlock_result (block : Block) (s s' : InMemoryAccountState) ret :
  ExecuteBlock block s numWorkers s' ret →
  s' = reference_block s (Transactions block) ∧ ret.1 ≡ₚ getSnapshot s' ∧ ret.2 = None.
Proof.
  intros (tr & st & snap & Hsteps & Hm & Hperm & ->).
  apply exec_inv_reachable in Hsteps. unfold exec_inv in Hsteps. rewrite Hm in Hsteps.
  destruct Hsteps as (Hret & Hl & _). simplify_eq. rewrite <- Hl. by destruct ret; simplify_eq/=.
Qed.

Lemma ExecuteBlock_returns (block : Block) (s : InMemoryAccountState) :
  ∃ s' ret, ExecuteBlock block s numWorkers s' ret.
Proof.
  destruct (always_returns_reaches _ _ _ (ExecuteBlock_always_returns block s))
    as (st & Hrtc & snap & Hm).
  apply rtc_exec_steps in Hrtc as [tr Hsteps].
  exists (ledger st), (snap, None), tr, st, snap. by repeat split.
Qed.

(** What [Start] returns. *)
Lemma Start_result ret :
  Start blocks initialState numWorkers ret →
  ret.1 ≡ₚ getSnapshot (reference_chain s0 blocks) ∧ ret.2 = None.
Proof.
  intros (snap & Hrtc & Hperm). apply start_inv_rtc in Hrtc. simpl in Hrtc.
  simplify_eq. by rewrite Hperm.
Qed.

Lemma Start_returns : ∃ ret, Start blocks initialState numWorkers ret.
Proof.
  destruct (always_returns_reaches _ _ _ Start_always_returns) as (p & Hrtc & snap & ->).
  exists (snap, None), snap. by split.
Qed.

End Chain.

Section Refinement.

Variables (txs : list Transaction) (s0 : InMemoryAccountState) (n : nat).

(** The events of a run so far are an initial part of the reference's, and
    the ledger is the reference's after some number of transactions. *)
Lemma exec_inv_prefix tr st :
  exec_inv txs s0 n tr st →
  tr `prefix_of` reference_trace 0 s0 txs
  ∧ ∃ k, (k ≤ length txs)%nat ∧ ledger st = reference_block s0 (take k txs).
Proof.
  destruct st as [l j r ws m]. unfold exec_inv. simpl.
  destruct m as [i rest|i rest| |ret|].
  - intros (done & -> & _ & -> & -> & _). split.
    + rewrite reference_trace_app. by apply prefix_app_r.
    + exists (length done). rewrite length_app, take_app_length. split; [lia|done].
  - intros (done & tx & -> & -> & -> & Hfl). split.
    + rewrite reference_trace_app. simpl.
      inversion Hfl; subst; first [by apply prefix_app_r | by apply prefix_app, prefix_cons, prefix_nil].
    + exists (length done). rewrite length_app, take_app_length. split; [lia|done].
  - intros (-> & -> & _). split; [done|].
    exists (length txs). by rewrite take_ge.
  - intros (_ & -> & -> & _). split; [done|].
    exists (length txs). by rewrite take_ge.
  - done.
Qed.

End Refinement.

Lemma ex_snapshot :
  getSnapshot (reference_chain (NewInMemoryAccountState ex_init) [ex_block])
  = [mkValue "C" 50; mkValue "A" 15; mkValue "B" 25].
Proof. vm_compute. reflexivity. Qed.

Lemma ex_snapshot_perm :
  [mkValue "C" 50; mkValue "A" 15; mkValue "B" 25] ≡ₚ ex_final.
Proof.
  unfold ex_final.
  etrans; [apply Permutation_swap|]. apply Permutation_skip, Permutation_swap.
Qed.

Lemma ex_Start_run (numWorkers : Z) :
  start_run numWorkers 100 (Start_init [ex_block] ex_init)
  = SReturn ([mkValue "C" 50; mkValue "A" 15; mkValue "B" 25], None) →
  Start [ex_block] ex_init numWorkers ([mkValue "C" 50; mkValue "A" 15; mkValue "B" 25], None).
Proof.
  intros Hrun. exists [mkValue "C" 50; mkValue "A" 15; mkValue "B" 25]. split; [|done].
  pose proof (start_run_sound numWorkers 100 (Start_init [ex_block] ex_init)) as H.
  rewrite Hrun in H. exact H.
Qed.

(** ** Properties of the executor *)

(** C1. With the same blocks and the same initial accounts, [Start] with
    [W1 >= 1] workers and [Start] with [W2 >= 1] workers return the same
    accounts with the same balances (listed in some order), and the same
    nil error. *)
Theorem C1_worker_count_independent
    (blocks : list Block) (initialState : list AccountValue) (W1 W2 : Z)
    (r1 r2 : list AccountValue * error) :
  1 <= W1 → 1 <= W2 →
  Start blocks initialState W1 r1 →
  Start blocks initialState W2 r2 →
  r1.1 ≡ₚ r2.1 ∧ r1.2 = r2.2.
Proof.
  intros H1 H2 Hr1 Hr2.
  apply Start_result in Hr1 as [Hp1 He1]; [|done].
  apply Start_result in Hr2 as [Hp2 He2]; [|done].
  split; [by rewrite Hp1, Hp2 | congruence].
Qed.

Lemma C1_worker_count_independent_witness :
  let r := ([mkValue "C" 50; mkValue "A" 15; mkValue "B" 25], None) in
  Start [ex_block] ex_init 1 r ∧ Start [ex_block] ex_init 16 r ∧ r.1 ≡ₚ r.1 ∧ r.2 = r.2.
Proof.
  intros r.
  assert (Start [ex_block] ex_init 1 r) as Ha
    by (apply ex_Start_run; vm_compute; reflexivity).
  assert (Start [ex_block] ex_init 16 r) as Hb
    by (apply ex_Start_run; vm_compute; reflexivity).
  split; [exact Ha|]. split; [exact Hb|].
  apply (C1_worker_count_independent [ex_block] ex_init 1 16 r r); [lia | lia | exact Ha | exact Hb].
Defined.

(** C2. With at least one worker, every run of [ExecuteBlock] does what the
    sequential reference does: its events so far are an initial part of
    the reference's events, the ledger is the reference's ledger after some
    number of transactions, and at the return both are the reference's in
    full.  In the reference, event [2 k] is [Updates] of transaction [k] on
    the ledger that the transactions before [k] left, and event [2 k + 1]
    is the commit of its deltas, or their dismissal when it failed; so the
    ledger is written in ascending order of the transactions. *)
Theorem C2_sequential_refinement
    (block : Block) (state : InMemoryAccountState) (numWorkers : Z)
    (tr : list event) (st : exec_state) :
  1 <= numWorkers →
  steps (ExecuteBlock_init block state numWorkers) tr st →
  let txs := Transactions block in
  tr `prefix_of` reference_trace 0 state txs
  ∧ (∃ k, (k ≤ length txs)%nat ∧ ledger st = reference_block state (take k txs))
  ∧ (∀ ret, main st = MReturn ret →
       tr = reference_trace 0 state txs ∧ ledger st = reference_block state txs)
  ∧ (∀ (k : nat) tx, txs !! k = Some tx →
       let view := reference_block state (take k txs) in
       reference_trace 0 state txs !! (2 * k)%nat = Some (EvUpdates (Z.of_nat k) view)
       ∧ reference_trace 0 state txs !! (2 * k + 1)%nat
         = Some (match Updates tx view with
                 | (us, None) => EvApply (Z.of_nat k) us
                 | (_, Some _) => EvSkip (Z.of_nat k)
                 end)).
Proof.
  intros HW Hsteps txs.
  apply exec_inv_reachable in Hsteps; [|done].
  destruct (exec_inv_prefix _ _ _ _ _ Hsteps) as [Hpre Hled].
  split; [done|]. split; [done|]. split.
  - intros ret Hm. unfold exec_inv in Hsteps. rewrite Hm in Hsteps. tauto.
  - intros k tx Hk. by apply reference_trace_lookup.
Qed.

Lemma C2_sequential_refinement_witness :
  let st0 := ExecuteBlock_init ex_block (NewInMemoryAccountState ex_init) 4 in
  let r := run 100 st0 in
  steps st0 r.1 r.2
  ∧ main r.2 = MReturn ([mkValue "C" 50; mkValue "A" 15; mkValue "B" 25], None)
  ∧ r.1 = reference_trace 0 (NewInMemoryAccountState ex_init) (Transactions ex_block)
  ∧ ledger r.2 = reference_block (NewInMemoryAccountState ex_init) (Transactions ex_block).
Proof.
  intros st0 r.
  assert (steps st0 r.1 r.2) as Hsteps by apply run_sound.
  assert (main r.2 = MReturn ([mkValue "C" 50; mkValue "A" 15; mkValue "B" 25], None)) as Hm
    by (vm_compute; reflexivity).
  split; [exact Hsteps|]. split; [exact Hm|].
  assert (1 <= 4) as HW by lia.
  exact (proj1 (proj2 (proj2 (C2_sequential_refinement ex_block _ 4 r.1 r.2 HW Hsteps))) _ Hm).
Defined.

(** C3. When [Updates] of a transaction of the block returns an error, on
    the ledger the transactions before it left, a run with at least one
    worker records the dismissal of its result and no write for it, goes
    on with the transactions after it, and ends with the ledger that those
    produce from the ledger it found; [ExecuteBlock] returns a nil error,
    and so does [Start] on any chain that holds the block. *)
Theorem C3_failed_transaction_discarded
    (pre post : list Transaction) (tx : Transaction) (e : string)
    (state : InMemoryAccountState) (numWorkers : Z)
    (tr : list event) (st : exec_state) (ret : list AccountValue * error) :
  1 <= numWorkers →
  (Updates tx (reference_block state pre)).2 = Some e →
  steps (ExecuteBlock_init (mkBlock (pre ++ tx :: post)) state numWorkers) tr st →
  main st = MReturn ret →
  let found := reference_block state pre in
  let i := Z.of_nat (length pre) in
  reference_tx found tx = found
  ∧ tr = reference_trace 0 state pre ++ [EvUpdates i found; EvSkip i]
         ++ reference_trace (i + 1) found post
  ∧ ledger st = reference_block found post
  ∧ ret.2 = None
  ∧ (∀ before after initialState r,
       Start (before ++ mkBlock (pre ++ tx :: post) :: after) initialState numWorkers r →
       r.2 = None).
Proof.
  intros HW Herr Hsteps Hm found i.
  assert (reference_tx found tx = found) as Hsame.
  { unfold reference_tx. fold found in Herr.
    destruct (Updates tx found) as [us e']. simpl in Herr. by subst. }
  apply (exec_inv_steps _ _ _ HW) in Hsteps. unfold exec_inv in Hsteps.
  rewrite Hm in Hsteps. destruct Hsteps as (-> & Hl & -> & _).
  split; [done|]. split; [|split; [|split; [done|]]].
  - rewrite reference_trace_app. simpl. fold found i. rewrite Hsame.
    fold found in Herr. rewrite Z.add_0_l.
    destruct (Updates tx found) as [us e']. simpl in Herr. by subst.
  - rewrite Hl, reference_block_app. simpl. fold found. by rewrite Hsame.
  - intros before after initialState r Hr. by apply Start_result in Hr as [_ ?].
Qed.

Lemma C3_failed_transaction_discarded_witness :
  let state := NewInMemoryAccountState ex_init in
  let r := run 100 (ExecuteBlock_init (mkBlock ([ex_t1; ex_t2] ++ ex_t3 :: [])) state 4) in
  (Updates ex_t3 (reference_block state [ex_t1; ex_t2])).2
    = Some "insufficient balance: account B has 25, needs 30"
  ∧ main r.2 = MReturn ([mkValue "C" 50; mkValue "A" 15; mkValue "B" 25], None)
  ∧ ledger r.2 = reference_block (reference_block state [ex_t1; ex_t2]) [].
Proof.
  intros state r.
  assert ((Updates ex_t3 (reference_block state [ex_t1; ex_t2])).2
          = Some "insufficient balance: account B has 25, needs 30") as He
    by (vm_compute; reflexivity).
  assert (main r.2 = MReturn ([mkValue "C" 50; mkValue "A" 15; mkValue "B" 25], None)) as Hm
    by (vm_compute; reflexivity).
  assert (1 <= 4) as HW by lia.
  split; [exact He|]. split; [exact Hm|].
  exact (proj1 (proj2 (proj2
    (C3_failed_transaction_discarded [ex_t1; ex_t2] [] ex_t3 _ state 4 r.1 r.2 _
       HW He (run_sound 100 _) Hm)))).
Defined.

(** C4. From A = 20, B = 30, C = 40, the block of the transfers A to B of 5,
    B to C of 10 and B to C of 30: when the third is reached B holds 25,
    its [Updates] fails for want of 30, every run dismisses it, and [Start]
    with at least one worker returns, with a nil error, A = 15, B = 25 and
    C = 50. *)
Theorem C4_order_sensitivity (numWorkers : Z) :
  1 <= numWorkers →
  let s2 := reference_block (NewInMemoryAccountState ex_init) [ex_t1; ex_t2] in
  GetAccount s2 "B" = mkValue "B" 25
  ∧ Updates ex_t3 s2 = ([], Some "insufficient balance: account B has 25, needs 30")
  ∧ (∀ tr st ret,
       steps (ExecuteBlock_init ex_block (NewInMemoryAccountState ex_init) numWorkers) tr st →
       main st = MReturn ret →
       tr !! 4%nat = Some (EvUpdates 2 s2) ∧ tr !! 5%nat = Some (EvSkip 2)
       ∧ length tr = 6%nat)
  ∧ (∃ ret, Start [ex_block] ex_init numWorkers ret)
  ∧ (∀ ret, Start [ex_block] ex_init numWorkers ret → ret.1 ≡ₚ ex_final ∧ ret.2 = None).
Proof.
  intros HW s2.
  split; [vm_compute; reflexivity|]. split; [vm_compute; reflexivity|].
  split; [|split].
  - intros tr st ret Hsteps Hm.
    apply exec_inv_reachable in Hsteps; [|done]. unfold exec_inv in Hsteps.
    rewrite Hm in Hsteps. destruct Hsteps as (_ & _ & -> & _).
    split; [vm_compute; reflexivity|]. split; [vm_compute; reflexivity|].
    by rewrite reference_trace_length.
  - by apply Start_returns.
  - intros ret Hr. apply Start_result in Hr as [Hp He]; [|done].
    split; [|done]. rewrite Hp, ex_snapshot. apply ex_snapshot_perm.
Qed.

Lemma C4_order_sensitivity_witness :
  1 <= 4 ∧ ∃ ret, Start [ex_block] ex_init 4 ret.
Proof.
  assert (1 <= 4) as HW by lia.
  split; [exact HW|].
  exact (proj1 (proj2 (proj2 (proj2 (C4_order_sensitivity 4 HW))))).
Defined.

(** C10. With at least one worker [ExecuteBlock] always returns, and what
    it returns has a nil error: no run is infinite, no run stops before the
    [return] or in a panic.  The same holds of [Start], which therefore
    always hands out a final snapshot and never an error. *)
Theorem C10_no_machinery_error
    (blocks : list Block) (initialState : list AccountValue)
    (block : Block) (state : InMemoryAccountState) (numWorkers : Z) :
  1 <= numWorkers →
  always_returns exec_step returned (ExecuteBlock_init block state numWorkers)
  ∧ (∃ state' ret, ExecuteBlock block state numWorkers state' ret)
  ∧ (∀ state' ret, ExecuteBlock block state numWorkers state' ret → ret.2 = None)
  ∧ always_returns (start_step numWorkers) start_returned (Start_init blocks initialState)
  ∧ (∃ ret, Start blocks initialState numWorkers ret)
  ∧ (∀ ret, Start blocks initialState numWorkers ret → ret.2 = None).
Proof.
  intros HW.
  split; [by apply ExecuteBlock_always_returns|].
  split; [by apply ExecuteBlock_returns|].
  split; [intros s' ret Hr; by apply ExecuteBlock_result in Hr as (_ & _ & ?)|].
  split; [by apply Start_always_returns|].
  split; [by apply Start_returns|].
  intros ret Hr. by apply Start_result in Hr as [_ ?].
Qed.

Lemma C10_no_machinery_error_witness :
  1 <= 4
  ∧ always_returns (start_step 4) start_returned (Start_init [ex_block] ex_init)
  ∧ ∃ ret, Start [ex_block] ex_init 4 ret.
Proof.
  assert (1 <= 4) as HW by lia.
  pose proof (C10_no_machinery_error [ex_block] ex_init ex_block
                (NewInMemoryAccountState ex_init) 4 HW) as H.
  split; [exact HW|]. split; [exact (proj1 (proj2 (proj2 (proj2 H))))|].
  exact (proj1 (proj2 (proj2 (proj2 (proj2 H))))).
Defined.

(** Without a worker the bound [1 <= numWorkers] of the properties above is
    missed on both counts.  [results] is closed at once, so the caller
    receives the zero [txResult] for the first transaction and applies
    nothing; with a second transaction it then waits for ever on [jobs],
    whose buffer still holds the first job. *)
Example zero_workers_deadlock :
  let st := (run 10 (ExecuteBlock_init ex_block (NewInMemoryAccountState ex_init) 0)).2 in
  main st = MSend 1 [ex_t2; ex_t3]
  ∧ ledger st = NewInMemoryAccountState ex_init
  ∧ nf exec_step st.
Proof.
  intros st.
  assert (main_step st = None) as Hmain by (vm_compute; reflexivity).
  assert (workers st = []) as Hws by (vm_compute; reflexivity).
  assert (closer_step st = None) as Hclose by (vm_compute; reflexivity).
  split; [vm_compute; reflexivity|]. split; [vm_compute; reflexivity|].
  intros [st' [ev Hstep]].
  inversion Hstep as [? ? ? H | k ? ? ? H | ? ? ? H]; subst; clear Hstep.
  - by rewrite Hmain in H.
  - unfold worker_step in H. rewrite Hws, lookup_nil in H. by destruct (alive st).
  - by rewrite Hclose in H.
Qed.

Example zero_workers_drop_transaction :
  let s := NewInMemoryAccountState ex_init in
  let st := (run 10 (ExecuteBlock_init (mkBlock [ex_t1]) s 0)).2 in
  main st = MReturn (getSnapshot s, None)
  ∧ ledger st = s
  ∧ ledger st ≠ reference_block s [ex_t1].
Proof.
  intros s st.
  split; [vm_compute; reflexivity|]. split; [vm_compute; reflexivity|].
  intros Heq. apply (f_equal (λ x, IM_GetAccount x "A")) in Heq.
  vm_compute in Heq. discriminate.
Qed.

(** ** The ledger under its lock: every reader sees whole batches *)

Section Locking.

Variables (s0 : InMemoryAccountState) (batches : list (list AccountUpdate)).

Local Abbreviation linv := (locked_inv s0 batches).

Lemma sum_with_insert (f : thread → nat) (ts : list thread) (k : nat) (t t' : thread) :
  ts !! k = Some t →
  (sum_list_with f (<[k := t']> ts) + f t = sum_list_with f ts + f t')%nat.
Proof.
  revert k. induction ts as [|x ts IH]; intros [|k] Hk; simplify_eq/=; [lia|].
  specialize (IH k Hk). lia.
Qed.

Lemma sum_with_lookup (f : thread → nat) (ts : list thread) (k : nat) (t : thread) :
  ts !! k = Some t → (f t ≤ sum_list_with f ts)%nat.
Proof. intros Hk. apply sum_list_with_in. by eapply list_elem_of_lookup_2. Qed.

Lemma sum_with_two (f : thread → nat) (ts : list thread) (k k' : nat) (t t' : thread) :
  k ≠ k' → ts !! k = Some t → ts !! k' = Some t' →
  (f t + f t' ≤ sum_list_with f ts)%nat.
Proof.
  revert k k'. induction ts as [|x ts IH]; intros [|k] [|k'] Hne Hk Hk'; simplify_eq/=.
  - pose proof (sum_with_lookup f ts k' t' Hk'). lia.
  - pose proof (sum_with_lookup f ts k t Hk). lia.
  - assert (k ≠ k') as Hne' by congruence. specialize (IH k k' Hne' Hk Hk'). lia.
Qed.

Lemma owed_insert (ts : list thread) (k : nat) (t t' : thread) :
  ts !! k = Some t →
  (<[k := t']> ts ≫= owed) ++ owed t ≡ₚ (ts ≫= owed) ++ owed t'.
Proof.
  revert k. induction ts as [|x ts IH]; intros [|k] Hk; simplify_eq/=.
  - solve_Permutation.
  - rewrite <- !app_assoc. by rewrite (IH k Hk).
Qed.

Lemma commit_all_snoc (s : InMemoryAccountState) bs (b : list AccountUpdate) :
  commit_all s (bs ++ [b]) = applyUpdates (commit_all s bs) b.
Proof. unfold commit_all. by rewrite fold_left_app. Qed.

Lemma committed_sub (committed : list (list AccountUpdate)) (ts : list thread) :
  committed ++ (ts ≫= owed) ≡ₚ batches → committed ⊆+ batches.
Proof. intros <-. by apply submseteq_inserts_r. Qed.

Lemma locked_inv_init (pool : list thread) :
  forallb starting pool = true → (pool ≫= owed) = batches → linv (locked_init s0 pool).
Proof.
  intros Hstart Hb. exists []. simpl.
  apply Is_true_true_2, forallb_True in Hstart.
  split_and!; try done.
  - clear Hb. induction Hstart as [|t ts Ht _ IH]; [done|]. simpl. rewrite IH. by destruct t.
  - clear Hb. induction Hstart as [|t ts Ht _ IH]; [done|]. simpl. rewrite IH. by destruct t.
  - by rewrite Hb.
  - eapply Forall_impl; [exact Hstart|]. intros t Ht. by destruct t.
Qed.

(** What changes in the counts of lock holders and in the batches still
    owed when goroutine [k] moves on to [new]. *)
Ltac thread_moves Hk new :=
  pose proof (sum_with_insert holds_read _ _ _ new Hk) as H1;
  pose proof (sum_with_insert holds_write _ _ _ new Hk) as H2;
  pose proof (owed_insert _ _ _ new Hk) as H3;
  simpl in *.

Lemma locked_inv_step k st st' : linv st → thread_step k st = Some st' → linv st'.
Proof.
  destruct st as [s [w r] ts].
  intros (committed & Hr & Hw & Hwr & Hs & Hb & Hts) Hstep.
  unfold thread_step in Hstep. simpl in *.
  destruct (ts !! k) as [t|] eqn:Hk; [|done].
  pose proof (proj1 (Forall_lookup _ _) Hts k t Hk) as Ht.
  pose proof (sum_with_lookup holds_read ts k t Hk) as Hrk.
  pose proof (sum_with_lookup holds_write ts k t Hk) as Hwk.
  pose proof (lookup_lt_Some _ _ _ Hk) as Hlen.
  destruct t as [us|us i| |name|name|v|v| |i res|res|res]; simpl in *.
  - (* [Lock] *)
    destruct w; [done|]. simpl in Hstep.
    destruct (Nat.eqb_spec r 0) as [->|]; [|done]. simplify_eq.
    thread_moves Hk (ApplyLoop us 0).
    exists committed. simpl. split_and!; try done; try lia.
    + apply (inj (λ l, l ++ [us])) in H3. by rewrite H3.
    + apply Forall_insert; [done|]. simpl. by rewrite Hs.
  - (* the loop of [applyUpdates] *)
    destruct w; [|lia]. specialize (Hwr eq_refl). subst r.
    destruct (us !! i) as [u|] eqn:Hu; simplify_eq.
    + thread_moves Hk (ApplyLoop us (S i)).
      exists committed. simpl. split_and!; try done; try lia.
      * apply (inj (λ l, l ++ [us])) in H3. by rewrite H3.
      * apply Forall_lookup. intros k' t' Hk'.
        destruct (decide (k = k')) as [<-|Hne].
        -- rewrite list_lookup_insert_eq in Hk' by done. simplify_eq. simpl.
           by rewrite (take_S_r _ _ _ Hu), fold_left_app, <- Ht.
        -- rewrite list_lookup_insert_ne in Hk' by done.
           pose proof (proj1 (Forall_lookup _ _) Hts k' t' Hk') as Ht'.
           pose proof (sum_with_two holds_write ts k k' _ _ Hne Hk Hk') as Huniq.
           pose proof (sum_with_lookup holds_read ts k' t' Hk') as Hnr.
           destruct t'; simpl in *; solve [lia | exact Ht'].
    + thread_moves Hk ApplyDone.
      exists (committed ++ [us]). simpl. split_and!; try done; try lia.
      * intros _. rewrite commit_all_snoc. destruct s as [m]. unfold applyUpdates.
        simpl in *. rewrite Ht. f_equal. rewrite take_ge; [done|].
        by apply lookup_ge_None.
      * rewrite app_nil_r in H3. rewrite <- Hb, <- H3. solve_Permutation.
      * apply Forall_lookup. intros k' t' Hk'.
        destruct (decide (k = k')) as [<-|Hne].
        -- rewrite list_lookup_insert_eq in Hk' by done. by simplify_eq.
        -- rewrite list_lookup_insert_ne in Hk' by done.
           pose proof (proj1 (Forall_lookup _ _) Hts k' t' Hk') as Ht'.
           pose proof (sum_with_two holds_write ts k k' _ _ Hne Hk Hk') as Huniq.
           pose proof (sum_with_lookup holds_read ts k' t' Hk') as Hnr.
           destruct t'; simpl in *; solve [lia | exact Ht'].
  - done.
  - (* [RLock] of [GetAccount] *)
    destruct w; [done|]. simplify_eq.
    thread_moves Hk (GetRead name).
    exists committed. simpl. split_and!; try done; try lia.
    + rewrite !app_nil_r in H3. by rewrite H3.
    + by apply Forall_insert.
  - (* the read of [GetAccount] *)
    destruct w; [specialize (Hwr eq_refl); lia|]. simplify_eq.
    thread_moves Hk (GetUnlock (IM_GetAccount s name)).
    exists committed. simpl. split_and!; try done; try lia.
    + rewrite !app_nil_r in H3. by rewrite H3.
    + apply Forall_insert; [done|]. simpl. exists committed.
      split; [by eapply committed_sub|]. by rewrite (Hs eq_refl).
  - (* [RUnlock] of [GetAccount] *)
    destruct w; [specialize (Hwr eq_refl); lia|]. simplify_eq.
    thread_moves Hk (GetDone v).
    exists committed. simpl. split_and!; try done; try lia.
    + rewrite !app_nil_r in H3. by rewrite H3.
    + by apply Forall_insert.
  - done.
  - (* [RLock] of [getSnapshot] *)
    destruct w; [done|]. simplify_eq.
    thread_moves Hk (SnapLoop 0 []).
    exists committed. simpl. split_and!; try done; try lia.
    + rewrite !app_nil_r in H3. by rewrite H3.
    + by apply Forall_insert.
  - (* the loop of [getSnapshot] *)
    destruct w; [specialize (Hwr eq_refl); lia|].
    destruct (getSnapshot s !! i) as [a|] eqn:Ha; simplify_eq.
    + thread_moves Hk (SnapLoop (S i) (take i (getSnapshot s) ++ [a])).
      exists committed. simpl. split_and!; try done; try lia.
      * rewrite !app_nil_r in H3. by rewrite H3.
      * apply Forall_insert; [done|]. simpl. by rewrite (take_S_r _ _ _ Ha).
    + thread_moves Hk (SnapUnlock (take i (getSnapshot s))).
      exists committed. simpl. split_and!; try done; try lia.
      * rewrite !app_nil_r in H3. by rewrite H3.
      * apply Forall_insert; [done|]. simpl. exists committed.
        split; [by eapply committed_sub|].
        rewrite take_ge by by apply lookup_ge_None. by rewrite (Hs eq_refl).
  - (* [RUnlock] of [getSnapshot] *)
    destruct w; [specialize (Hwr eq_refl); lia|]. simplify_eq.
    thread_moves Hk (SnapDone res).
    exists committed. simpl. split_and!; try done; try lia.
    + rewrite !app_nil_r in H3. by rewrite H3.
    + by apply Forall_insert.
  - done.
Qed.

Lemma locked_inv_rtc (pool : list thread) st :
  forallb starting pool = true → (pool ≫= owed) = batches →
  rtc locked_step (locked_init s0 pool) st → linv st.
Proof.
  intros Hstart Hb. revert st. apply (rtc_ind_r linv).
  - by apply locked_inv_init.
  - intros st st' _ [k Hstep] Hinv. by eapply locked_inv_step.
Qed.

Lemma locked_inv_saw st k t :
  linv st → l_threads st !! k = Some t → saw_whole_batches s0 batches t.
Proof.
  intros (committed & _ & _ & _ & _ & _ & Hts) Hk.
  pose proof (proj1 (Forall_lookup _ _) Hts k t Hk) as Ht.
  by destruct t.
Qed.

End Locking.

Lemma locked_run_sound schedule st : rtc locked_step st (locked_run schedule st).
Proof.
  revert st. induction schedule as [|k schedule IH]; intros st; simpl; [done|].
  destruct (thread_step k st) as [st'|] eqn:E; [|apply IH].
  eapply rtc_l; [by exists k|apply IH].
Qed.

(** ** Properties of the ledger *)

(** C5. A negative delta whose magnitude exceeds the balance the account
    holds when the delta is reached (after the deltas before it in the
    batch) leaves that account at exactly 0; [ApplyUpdates] has no failure
    result. *)
Theorem C5_underflow_clamps_to_zero
    (s : InMemoryAccountState) (before : list AccountUpdate) (name : string) (d : Z) :
  is_int d → d < 0 →
  Balance (GetAccount (ApplyUpdates s before) name) < - d →
  GetAccount (ApplyUpdates s (before ++ [mkUpdate name d])) name = mkValue name 0.
Proof.
  intros Hd Hneg Hlt. simpl in *.
  rewrite applyUpdates_app. unfold IM_GetAccount in *. simpl in *.
  f_equal. rewrite (apply_update_balance _ (mkUpdate name d)). simpl.
  rewrite decrease_magnitude by done.
  destruct (Z.leb_spec 0 d) as [?|_]; [lia|].
  destruct (Z.ltb_spec (balance_of (fold_left apply_update before (accounts s)) name) (- d))
    as [_|?]; [done|lia].
Qed.

Lemma C5_underflow_clamps_to_zero_witness :
  is_int (-50) ∧ -50 < 0
  ∧ Balance (GetAccount (ApplyUpdates (NewInMemoryAccountState [mkValue "A" 10]) []) "A") < - -50
  ∧ GetAccount (ApplyUpdates (NewInMemoryAccountState [mkValue "A" 10])
                             ([] ++ [mkUpdate "A" (-50)])) "A" = mkValue "A" 0.
Proof.
  assert (is_int (-50)) as Hi by (unfold is_int, int_min, int_max; lia).
  assert (Balance (GetAccount (ApplyUpdates (NewInMemoryAccountState [mkValue "A" 10]) []) "A")
          < - -50) as Hb by (vm_compute; reflexivity).
  split; [exact Hi|]. split; [lia|]. split; [exact Hb|].
  apply (C5_underflow_clamps_to_zero (NewInMemoryAccountState [mkValue "A" 10]) [] "A" (-50) Hi);
    [lia | exact Hb].
Defined.

(** C6. An account name that is neither in the initial state nor named by
    any delta applied since reads as that name with balance 0. *)
Theorem C6_unknown_account_reads_zero
    (init : list AccountValue) (batches : list (list AccountUpdate)) (name : string) :
  name ∉ (AName <$> init) →
  name ∉ (Name <$> concat batches) →
  GetAccount (commit_all (NewInMemoryAccountState init) batches) name = mkValue name 0.
Proof.
  intros Hinit Hbatches. simpl. unfold IM_GetAccount. f_equal.
  assert (name ∉ dom (accounts (commit_all (NewInMemoryAccountState init) batches))) as Hdom.
  { rewrite commit_all_dom, New_dom. set_solver. }
  apply not_elem_of_dom in Hdom. unfold balance_of. by rewrite Hdom.
Qed.

Lemma C6_unknown_account_reads_zero_witness :
  ("Z" ∉ (AName <$> [mkValue "A" 20; mkValue "B" 30]))
  ∧ ("Z" ∉ (Name <$> concat [[mkUpdate "A" (-5); mkUpdate "B" 5]; [mkUpdate "C" 7]]))
  ∧ GetAccount (commit_all (NewInMemoryAccountState [mkValue "A" 20; mkValue "B" 30])
                           [[mkUpdate "A" (-5); mkUpdate "B" 5]; [mkUpdate "C" 7]]) "Z"
    = mkValue "Z" 0.
Proof.
  assert ("Z" ∉ (AName <$> [mkValue "A" 20; mkValue "B" 30])) as H1.
  { simpl. rewrite !not_elem_of_cons. repeat split; try discriminate. apply not_elem_of_nil. }
  assert ("Z" ∉ (Name <$> concat [[mkUpdate "A" (-5); mkUpdate "B" 5]; [mkUpdate "C" 7]])) as H2.
  { simpl. rewrite !not_elem_of_cons. repeat split; try discriminate. apply not_elem_of_nil. }
  split; [exact H1|]. split; [exact H2|].
  exact (C6_unknown_account_reads_zero _ _ _ H1 H2).
Defined.

(** C7, as the code has it.  An account is listed by the snapshot exactly
    when it is in the initial state or some applied delta names it,
    whatever the sign of that delta. *)
Theorem C7_snapshot_lists_every_named_account
    (init : list AccountValue) (batches : list (list AccountUpdate)) (name : string) :
  name ∈ (AName <$> getSnapshot (commit_all (NewInMemoryAccountState init) batches))
  ↔ name ∈ (AName <$> init) ∨ name ∈ (Name <$> concat batches).
Proof.
  rewrite getSnapshot_names, commit_all_dom, New_dom. set_solver.
Qed.

(** C7 as stated fails.  From the empty ledger, a delta of -5 and a delta
    of 0, neither positive, put both accounts named into the snapshot; and
    a run of [Start] on one transfer of 0 from P to Q, whose deltas are both
    0, returns P and Q. *)
Lemma C7_counterexample :
  let s := commit_all (NewInMemoryAccountState []) [[mkUpdate "X" (-5); mkUpdate "Y" 0]] in
  (Forall (λ u, BalanceChange u <= 0) [mkUpdate "X" (-5); mkUpdate "Y" 0]
   ∧ mkValue "X" 0 ∈ getSnapshot s ∧ mkValue "Y" 0 ∈ getSnapshot s)
  ∧ (Updates ex_zero_transfer (NewInMemoryAccountState [])
       = ([mkUpdate "P" 0; mkUpdate "Q" 0], None)
     ∧ Start [mkBlock [ex_zero_transfer]] [] 1 ([mkValue "Q" 0; mkValue "P" 0], None)).
Proof.
  simpl. split; [split|split].
  - repeat constructor; simpl; lia.
  - split; apply getSnapshot_elem; vm_compute; reflexivity.
  - vm_compute. reflexivity.
  - exists [mkValue "Q" 0; mkValue "P" 0]. split; [|done].
    pose proof (start_run_sound 1 100 (Start_init [mkBlock [ex_zero_transfer]] [])) as H.
    assert (start_run 1 100 (Start_init [mkBlock [ex_zero_transfer]] [])
            = SReturn ([mkValue "Q" 0; mkValue "P" 0], None)) as Hrun
      by (vm_compute; reflexivity).
    rewrite Hrun in H. exact H.
Qed.

(** C8, as the code has it.  A delta [d >= 0] on a balance [b] stores
    [b + d] reduced modulo [2 ^ 64]: the sum itself when it is
    representable, and the sum less [2 ^ 64] when it is not. *)
Theorem C8_positive_delta_wraps
    (s : InMemoryAccountState) (name : string) (d : Z) :
  is_uint (Balance (GetAccount s name)) → is_int d → 0 <= d →
  let b := Balance (GetAccount s name) in
  Balance (GetAccount (ApplyUpdates s [mkUpdate name d]) name)
  = if b + d <? uint_modulus then b + d else b + d - uint_modulus.
Proof.
  intros Hb Hd Hpos b. simpl in *.
  rewrite (apply_update_balance _ (mkUpdate name d)). simpl.
  destruct (Z.leb_spec 0 d) as [_|?]; [|lia].
  fold b. unfold is_uint, is_int, int_max, int_min in *. fold b in Hb.
  unfold to_uint, uint_modulus in *.
  change (2 ^ 64) with 18446744073709551616 in *.
  change (2 ^ 63) with 9223372036854775808 in *.
  destruct (Z.ltb_spec (b + d) 18446744073709551616); Z.div_mod_to_equations; lia.
Qed.

Lemma C8_positive_delta_wraps_witness :
  let s := NewInMemoryAccountState [mkValue "A" (2 ^ 64 - 1)] in
  Balance (GetAccount (ApplyUpdates s [mkUpdate "A" 3]) "A") = 2.
Proof.
  intros s.
  assert (is_uint (Balance (GetAccount s "A"))) as H1 by (vm_compute; split; [discriminate|reflexivity]).
  assert (is_int 3) as H2 by (unfold is_int, int_min, int_max; lia).
  rewrite (C8_positive_delta_wraps s "A" 3 H1 H2); [|lia].
  vm_compute. reflexivity.
Defined.

(** C8 as stated fails: adding 1 to the largest balance stores 0, which is
    neither the sum, nor the largest balance, and [ApplyUpdates] reports
    nothing. *)
Lemma C8_counterexample :
  let s := NewInMemoryAccountState [mkValue "A" (2 ^ 64 - 1)] in
  let s' := ApplyUpdates s [mkUpdate "A" 1] in
  Balance (GetAccount s "A") = uint_modulus - 1
  ∧ Balance (GetAccount s' "A") = 0
  ∧ Balance (GetAccount s' "A") ≠ Balance (GetAccount s "A") + 1
  ∧ Balance (GetAccount s' "A") ≠ uint_modulus - 1.
Proof. vm_compute. repeat split; discriminate. Qed.


(** ** Properties of the ledger under its lock *)

Lemma submseteq_singleton_cases {A : Type} (c : list A) (x : A) :
  c ⊆+ [x] → c = [] ∨ c = [x].
Proof.
  intros Hsub. destruct c as [|y c]; [by left|right].
  apply Permutation_singleton_r, submseteq_length_Permutation; [done|]. simpl. lia.
Qed.

(** C9. While one goroutine runs [ApplyUpdates] on a batch and any number of
    others run [GetAccount] or [getSnapshot] on the same ledger, under any
    interleaving of their lock operations, map writes and map reads, what a
    reader obtains is read either from the ledger before the batch or from
    the ledger with all of the batch applied. *)
Theorem C9_batch_atomic_for_readers
    (s0 : InMemoryAccountState) (updates : list AccountUpdate) (pool : list thread)
    (st : locked_state) (k : nat) (t : thread) :
  forallb starting pool = true →
  pool ≫= owed = [updates] →
  rtc locked_step (locked_init s0 pool) st →
  l_threads st !! k = Some t →
  match t with
  | GetUnlock v | GetDone v =>
      v = GetAccount s0 (AName v) ∨ v = GetAccount (ApplyUpdates s0 updates) (AName v)
  | SnapUnlock l | SnapDone l =>
      l = getSnapshot s0 ∨ l = getSnapshot (ApplyUpdates s0 updates)
  | _ => True
  end.
Proof.
  intros Hstart Hpool Hrtc Hk.
  pose proof (locked_inv_rtc s0 [updates] pool st Hstart Hpool Hrtc) as Hinv.
  pose proof (locked_inv_saw s0 [updates] st k t Hinv Hk) as Hsaw.
  destruct t; try done; simpl in Hsaw; destruct Hsaw as (c & Hc & ->);
    apply submseteq_singleton_cases in Hc as [-> | ->]; auto.
Qed.

Lemma C9_batch_atomic_for_readers_witness :
  let s0 := NewInMemoryAccountState ex_init in
  let st := locked_run ex_schedule (locked_init s0 ex_pool) in
  l_threads st !! 1%nat = Some (GetDone (mkValue "B" 35))
  ∧ (mkValue "B" 35 = GetAccount s0 "B"
     ∨ mkValue "B" 35 = GetAccount (ApplyUpdates s0 ex_updates) "B").
Proof.
  intros s0 st.
  assert (l_threads st !! 1%nat = Some (GetDone (mkValue "B" 35))) as Hk
    by (vm_compute; reflexivity).
  split; [exact Hk|].
  exact (C9_batch_atomic_for_readers s0 ex_updates ex_pool st 1 _
           eq_refl eq_refl (locked_run_sound ex_schedule _) Hk).
Defined.

(** ** Further properties of the ledger *)

Section LedgerMore.

Implicit Types (m : gmap string Z) (s : InMemoryAccountState).
Implicit Types (u : AccountUpdate) (us : list AccountUpdate) (name : string).

Lemma apply_update_insert m u :
  apply_update m u
  = <[Name u := new_balance (balance_of m (Name u)) (BalanceChange u)]> m.
Proof. unfold apply_update, new_balance. by repeat case_match. Qed.

Lemma new_balance_range cur d : is_uint (new_balance cur d).
Proof.
  unfold new_balance. repeat case_match; try apply to_uint_range.
  unfold is_uint, uint_modulus. lia.
Qed.

Lemma new_balance_exact cur d :
  is_uint cur → is_int d → is_uint (cur + d) → new_balance cur d = cur + d.
Proof.
  unfold new_balance. intros Hc Hd Hsum.
  destruct (Z.leb_spec 0 d) as [Hpos|Hneg].
  - rewrite (to_uint_small d), to_uint_small; [done|done|].
    unfold is_uint, is_int, int_max, uint_modulus in *. lia.
  - rewrite decrease_magnitude by done.
    destruct (Z.ltb_spec cur (- d)) as [Hlt|Hge].
    + unfold is_uint in *. lia.
    + rewrite to_uint_small; [lia|]. by replace (cur - - d) with (cur + d) by lia.
Qed.

Lemma balance_of_insert m name name' b :
  balance_of (<[name := b]> m) name' = if decide (name = name') then b else balance_of m name'.
Proof. unfold balance_of. rewrite lookup_insert. by case_decide. Qed.

Lemma apply_update_comm m u1 u2 :
  Name u1 ≠ Name u2 →
  apply_update (apply_update m u1) u2 = apply_update (apply_update m u2) u1.
Proof.
  intros Hne. rewrite !apply_update_insert, !balance_of_insert.
  rewrite !decide_False by done. by apply insert_insert_ne.
Qed.

Lemma fold_apply_update_perm us us' m :
  NoDup (Name <$> us) → us ≡ₚ us' →
  fold_left apply_update us m = fold_left apply_update us' m.
Proof.
  intros Hnd Hp. revert m Hnd.
  induction Hp as [|u us us' Hp IH|u1 u2 us|us1 us2 us3 Hp1 IH1 Hp2 IH2]; intros m Hnd.
  - done.
  - simpl. apply IH. rewrite fmap_cons in Hnd. by apply NoDup_cons in Hnd as [_ ?].
  - simpl. rewrite apply_update_comm; [done|].
    rewrite !fmap_cons in Hnd. apply NoDup_cons in Hnd as [Hnotin _].
    rewrite not_elem_of_cons in Hnotin. by intros ?; destruct Hnotin as [[] _].
  - rewrite IH1 by done. apply IH2. by rewrite <- Hp1.
Qed.

Lemma fold_apply_update_uint us m :
  map_Forall (λ _ b, is_uint b) m →
  map_Forall (λ _ b, is_uint b) (fold_left apply_update us m).
Proof.
  revert m. induction us as [|u us IH]; intros m Hm; simpl; [done|].
  apply IH. rewrite apply_update_insert.
  apply map_Forall_insert_2; [apply new_balance_range|done].
Qed.

Lemma New_list_to_map (init : list AccountValue) :
  accounts (NewInMemoryAccountState init)
  = list_to_map (reverse ((λ a, (AName a, Balance a)) <$> init)).
Proof.
  unfold NewInMemoryAccountState. simpl.
  assert (∀ m, fold_left (λ m acc, <[AName acc := Balance acc]> m) init m
               = foldr (λ p m, <[p.1 := p.2]> m) m
                       (reverse ((λ a, (AName a, Balance a)) <$> init))) as Hgen.
  { induction init as [|a init IH]; intros m; simpl; [done|].
    by rewrite IH, reverse_cons, foldr_app. }
  rewrite Hgen. reflexivity.
Qed.

Lemma pairs_of_snapshot s :
  (λ a, (AName a, Balance a)) <$> getSnapshot s = map_to_list (accounts s).
Proof.
  unfold getSnapshot. rewrite <- list_fmap_compose.
  rewrite <- (list_fmap_id (map_to_list (accounts s))) at 2.
  apply list_fmap_ext. by intros ? [k v].
Qed.

Lemma getSnapshot_NoDup_names s : NoDup (AName <$> getSnapshot s).
Proof.
  replace (AName <$> getSnapshot s) with ((map_to_list (accounts s)).*1).
  - apply NoDup_fst_map_to_list.
  - rewrite <- pairs_of_snapshot, <- list_fmap_compose. done.
Qed.

End LedgerMore.

Lemma New_uint (init : list AccountValue) :
  Forall (λ a, is_uint (Balance a)) init →
  map_Forall (λ _ b, is_uint b) (accounts (NewInMemoryAccountState init)).
Proof.
  intros Hinit. unfold NewInMemoryAccountState. simpl.
  assert (∀ m : gmap string Z, map_Forall (λ _ b, is_uint b) m →
            map_Forall (λ _ b, is_uint b)
              (fold_left (λ m acc, <[AName acc := Balance acc]> m) init m)) as Hgen.
  { induction Hinit as [|a init Ha _ IH]; intros m Hm; simpl; [done|].
    apply IH. by apply map_Forall_insert_2. }
  apply Hgen, map_Forall_empty.
Qed.

Lemma reference_chain_uint (blocks : list Block) (s : InMemoryAccountState) :
  map_Forall (λ _ b, is_uint b) (accounts s) →
  map_Forall (λ _ b, is_uint b) (accounts (reference_chain s blocks)).
Proof.
  revert s. induction blocks as [|b blocks IH]; intros s Hs; [done|].
  unfold reference_chain in *. simpl. apply IH. clear IH.
  generalize (Transactions b). intros txs. revert s Hs.
  induction txs as [|tx txs IH]; intros s Hs; [done|].
  unfold reference_block in *. simpl. apply IH. unfold reference_tx.
  destruct (Updates tx s) as [us [e|]]; [done|]. simpl.
  by apply fold_apply_update_uint.
Qed.

(** X1. [ApplyUpdates] leaves alone every account that the batch does not
    name: it reads as before. *)
Theorem X1_apply_updates_frame
    (s : InMemoryAccountState) (us : list AccountUpdate) (name : string) :
  name ∉ (Name <$> us) →
  GetAccount (ApplyUpdates s us) name = GetAccount s name.
Proof.
  intros Hn. simpl. unfold IM_GetAccount, balance_of. simpl.
  by rewrite fold_apply_update_lookup_ne.
Qed.

Lemma X1_apply_updates_frame_witness :
  GetAccount (ApplyUpdates (NewInMemoryAccountState ex_init) ex_updates) "C"
  = GetAccount (NewInMemoryAccountState ex_init) "C".
Proof.
  apply (X1_apply_updates_frame (NewInMemoryAccountState ex_init) ex_updates "C").
  simpl. rewrite !not_elem_of_cons. repeat split; try discriminate. apply not_elem_of_nil.
Defined.

(** X2. When the balance [b] and the exact sum [b + d] are both within
    [uint], a delta [d] of either sign stores exactly [b + d]: the clamp and
    the wrap-around only happen outside that range. *)
Theorem X2_delta_exact_in_range
    (s : InMemoryAccountState) (name : string) (d : Z) :
  let b := Balance (GetAccount s name) in
  is_uint b → is_int d → is_uint (b + d) →
  GetAccount (ApplyUpdates s [mkUpdate name d]) name = mkValue name (b + d).
Proof.
  intros b Hb Hd Hsum. simpl in *. unfold IM_GetAccount. f_equal. simpl.
  rewrite apply_update_insert. simpl. rewrite balance_of_insert, decide_True by done.
  by apply new_balance_exact.
Qed.

Lemma X2_delta_exact_in_range_witness :
  GetAccount (ApplyUpdates (NewInMemoryAccountState ex_init) [mkUpdate "B" (-30)]) "B"
  = mkValue "B" (Balance (GetAccount (NewInMemoryAccountState ex_init) "B") + -30).
Proof.
  apply (X2_delta_exact_in_range (NewInMemoryAccountState ex_init) "B" (-30)).
  - vm_compute. split; [discriminate|reflexivity].
  - unfold is_int, int_min, int_max. lia.
  - vm_compute. split; [discriminate|reflexivity].
Defined.

(** X3. When the initial balances are within [uint], so is every balance
    that [Start] returns, whatever deltas the transactions produce: no
    account is ever handed out negative or above the range. *)
Theorem X3_balances_stay_uint
    (blocks : list Block) (initialState : list AccountValue) (numWorkers : Z)
    (ret : list AccountValue * error) :
  1 <= numWorkers →
  Forall (λ a, is_uint (Balance a)) initialState →
  Start blocks initialState numWorkers ret →
  Forall (λ a, is_uint (Balance a)) ret.1.
Proof.
  intros HW Hinit Hstart. apply Start_result in Hstart as [Hp _]; [|done].
  rewrite Hp. apply Forall_forall. intros a Ha. apply getSnapshot_elem in Ha.
  by apply (reference_chain_uint blocks _ (New_uint _ Hinit) _ _ Ha).
Qed.

Lemma X3_balances_stay_uint_witness :
  Forall (λ a, is_uint (Balance a)) [mkValue "C" 50; mkValue "A" 15; mkValue "B" 25].
Proof.
  apply (X3_balances_stay_uint [ex_block] ex_init 4
           ([mkValue "C" 50; mkValue "A" 15; mkValue "B" 25], None)).
  - lia.
  - repeat constructor; vm_compute; discriminate.
  - apply ex_Start_run. vm_compute. reflexivity.
Defined.

(** X4. A batch that names each account at most once can be applied in any
    order: every reordering of it leaves the same ledger. *)
Theorem X4_batch_order_irrelevant
    (s : InMemoryAccountState) (us us' : list AccountUpdate) :
  NoDup (Name <$> us) → us ≡ₚ us' →
  ApplyUpdates s us = ApplyUpdates s us'.
Proof.
  intros Hnd Hp. simpl. unfold applyUpdates. f_equal.
  by apply fold_apply_update_perm.
Qed.

Lemma X4_batch_order_irrelevant_witness :
  ApplyUpdates (NewInMemoryAccountState ex_init) [mkUpdate "A" (-5); mkUpdate "B" 5]
  = ApplyUpdates (NewInMemoryAccountState ex_init) [mkUpdate "B" 5; mkUpdate "A" (-5)].
Proof.
  apply X4_batch_order_irrelevant.
  - simpl. apply NoDup_cons. split.
    + rewrite not_elem_of_cons. split; [discriminate|apply not_elem_of_nil].
    + apply NoDup_singleton.
  - apply Permutation_swap.
Defined.

(** X5. [NewInMemoryAccountState] keeps, for a name listed more than once,
    the balance of its last entry; a name that is not listed reads 0. *)
Theorem X5_new_state_last_entry_wins (init : list AccountValue) (name : string) :
  GetAccount (NewInMemoryAccountState init) name
  = mkValue name (default 0 (Balance <$> last (filter (λ a, AName a = name) init))).
Proof.
  simpl. unfold IM_GetAccount, balance_of. f_equal. f_equal.
  induction init as [|a init IH] using rev_ind; [done|].
  unfold NewInMemoryAccountState in *. simpl in *.
  rewrite fold_left_app, filter_app. simpl.
  rewrite lookup_insert. destruct (decide (AName a = name)) as [Ha|Ha].
  - rewrite filter_cons_True by done. rewrite filter_nil, last_snoc. done.
  - rewrite filter_cons_False by done. rewrite filter_nil, app_nil_r. done.
Qed.

(** X6. A ledger built from a list of distinct names lists exactly that
    list in its snapshot, in some order. *)
Theorem X6_snapshot_of_new_state (init : list AccountValue) :
  NoDup (AName <$> init) →
  getSnapshot (NewInMemoryAccountState init) ≡ₚ init.
Proof.
  intros Hnd.
  set (pair_of := λ a : AccountValue, (AName a, Balance a)).
  assert (map_to_list (accounts (NewInMemoryAccountState init)) ≡ₚ pair_of <$> init) as Hp.
  { rewrite New_list_to_map. fold pair_of.
    rewrite map_to_list_to_map.
    - apply reverse_Permutation.
    - rewrite fmap_reverse, reverse_Permutation.
      by rewrite <- list_fmap_compose. }
  unfold getSnapshot. rewrite Hp, <- list_fmap_compose.
  rewrite <- (list_fmap_id init) at 2.
  assert ((λ kv : string * Z, mkValue kv.1 kv.2) ∘ pair_of <$> init = id <$> init) as ->; [|done].
  apply list_fmap_ext. by intros ? [n b].
Qed.

Lemma X6_snapshot_of_new_state_witness :
  getSnapshot (NewInMemoryAccountState ex_init) ≡ₚ ex_init.
Proof.
  apply X6_snapshot_of_new_state. unfold ex_init. simpl.
  repeat (apply NoDup_cons; split;
          [rewrite ?not_elem_of_cons; repeat split; try discriminate; apply not_elem_of_nil|]).
  apply NoDup_nil_2.
Defined.

Lemma New_of_snapshot (s : InMemoryAccountState) (l : list AccountValue) :
  l ≡ₚ getSnapshot s → NewInMemoryAccountState l = s.
Proof.
  intros Hp. destruct s as [m]. unfold NewInMemoryAccountState at 1.
  f_equal. change (accounts (NewInMemoryAccountState l) = m).
  rewrite New_list_to_map.
  rewrite <- (list_to_map_to_list m) at 1.
  apply list_to_map_proper.
  - rewrite fmap_reverse, reverse_Permutation.
    rewrite <- list_fmap_compose, Hp. apply (getSnapshot_NoDup_names (mkState m)).
  - rewrite reverse_Permutation, Hp. by rewrite pairs_of_snapshot.
Qed.

(** X7. A ledger rebuilt from its own snapshot, listed in any order, is the
    same ledger. *)
Theorem X7_new_state_of_snapshot (s : InMemoryAccountState) (l : list AccountValue) :
  l ≡ₚ getSnapshot s → NewInMemoryAccountState l = s.
Proof. apply New_of_snapshot. Qed.

Lemma X7_new_state_of_snapshot_witness :
  NewInMemoryAccountState (reverse (getSnapshot (NewInMemoryAccountState ex_init)))
  = NewInMemoryAccountState ex_init.
Proof. apply X7_new_state_of_snapshot, reverse_Permutation. Defined.

(** X8. The snapshot lists every account of the ledger once: its names are
    pairwise distinct, it has one entry per key of the map, and an entry is
    in it exactly when the map holds that balance under that name. *)
Theorem X8_snapshot_lists_each_account_once (s : InMemoryAccountState) :
  NoDup (AName <$> getSnapshot s)
  ∧ length (getSnapshot s) = size (accounts s)
  ∧ ∀ a, a ∈ getSnapshot s ↔ accounts s !! AName a = Some (Balance a).
Proof.
  split; [apply getSnapshot_NoDup_names|]. split.
  - unfold getSnapshot. by rewrite length_fmap, length_map_to_list.
  - apply getSnapshot_elem.
Qed.

(** ** Further properties of [transfer] and of the money supply *)

Section Supply.

Implicit Types (m : gmap string Z) (s : InMemoryAccountState) (l : list AccountValue).

Lemma to_int_small x : is_int x → to_int x = x.
Proof.
  unfold is_int, int_min, int_max, to_int, uint_modulus.
  change (2 ^ 64) with 18446744073709551616.
  change (2 ^ 63) with 9223372036854775808.
  intros Hx. Z.div_mod_to_equations. lia.
Qed.

Lemma sum_balances_perm l l' : l ≡ₚ l' → sum_balances l = sum_balances l'.
Proof. induction 1; simpl; lia. Qed.

Lemma sum_balances_nonneg l : Forall (λ a, 0 <= Balance a) l → 0 <= sum_balances l.
Proof. induction 1; simpl; lia. Qed.

Lemma total_supply_pairs m :
  total_supply (mkState m) = foldr (λ kv acc, kv.2 + acc) 0 (map_to_list m).
Proof.
  unfold total_supply, getSnapshot. simpl.
  induction (map_to_list m) as [|[k v] l IH]; simpl; [done|]. by rewrite <- IH.
Qed.

Lemma sum_pairs_perm (l l' : list (string * Z)) :
  l ≡ₚ l' → foldr (λ kv acc, kv.2 + acc) 0 l = foldr (λ kv acc, kv.2 + acc) 0 l'.
Proof. induction 1; simpl; lia. Qed.

Lemma total_supply_insert_fresh m k v :
  m !! k = None → total_supply (mkState (<[k := v]> m)) = v + total_supply (mkState m).
Proof.
  intros Hk. rewrite !total_supply_pairs.
  by rewrite (sum_pairs_perm _ _ (map_to_list_insert m k v Hk)).
Qed.

Lemma total_supply_delete m k :
  total_supply (mkState m) = balance_of m k + total_supply (mkState (delete k m)).
Proof.
  unfold balance_of. destruct (m !! k) as [x|] eqn:Hk; simpl.
  - rewrite !total_supply_pairs.
    by rewrite <- (sum_pairs_perm _ _ (map_to_list_delete m k x Hk)).
  - by rewrite delete_id.
Qed.

Lemma total_supply_insert m k v :
  total_supply (mkState (<[k := v]> m)) = total_supply (mkState m) - balance_of m k + v.
Proof.
  rewrite <- (insert_delete_eq m), total_supply_insert_fresh by apply lookup_delete_eq.
  rewrite (total_supply_delete m k). lia.
Qed.

Lemma total_supply_nonneg m :
  map_Forall (λ _ b, 0 <= b) m → 0 <= total_supply (mkState m).
Proof.
  intros Hm. apply sum_balances_nonneg, Forall_forall. intros a Ha.
  apply getSnapshot_elem in Ha. by apply (Hm _ _ Ha).
Qed.

Lemma balance_within_supply m k :
  map_Forall (λ _ b, 0 <= b) m → 0 <= balance_of m k <= total_supply (mkState m).
Proof.
  intros Hm. rewrite (total_supply_delete m k).
  assert (0 <= total_supply (mkState (delete k m))).
  { apply total_supply_nonneg. intros i x Hi.
    apply lookup_delete_Some in Hi as [_ Hi]. by apply (Hm _ _ Hi). }
  assert (0 <= balance_of m k); [|lia].
  unfold balance_of. destruct (m !! k) as [x|] eqn:Hk; simpl; [by apply (Hm _ _ Hk)|lia].
Qed.

(** A delta that keeps the balance within the supply is stored exactly, and
    moves the supply by as much. *)
Lemma apply_update_solvent m k d :
  map_Forall (λ _ b, 0 <= b) m →
  total_supply (mkState m) < uint_modulus →
  is_int d → 0 <= balance_of m k + d → total_supply (mkState m) + d < uint_modulus →
  apply_update m (mkUpdate k d) = <[k := balance_of m k + d]> m
  ∧ map_Forall (λ _ b, 0 <= b) (apply_update m (mkUpdate k d))
  ∧ total_supply (mkState (apply_update m (mkUpdate k d))) = total_supply (mkState m) + d.
Proof.
  intros Hm Htot Hd Hlow Hhigh.
  pose proof (balance_within_supply m k Hm) as Hb.
  assert (apply_update m (mkUpdate k d) = <[k := balance_of m k + d]> m) as ->.
  { rewrite apply_update_insert. simpl. f_equal.
    apply new_balance_exact; [|done|]; unfold is_uint; lia. }
  split; [done|]. split.
  - by apply map_Forall_insert_2.
  - rewrite total_supply_insert. lia.
Qed.

Lemma transfer_solvent s (t : transfer) :
  solvent s → 0 <= value t <= int_max →
  solvent (reference_tx s (transfer_tx t))
  ∧ total_supply (reference_tx s (transfer_tx t)) = total_supply s.
Proof.
  destruct s as [m]. intros [Hm Htot] Hv. simpl in Hm.
  assert (is_int (value t)) as Hvi by (unfold is_int, int_min, int_max in *; lia).
  assert (is_int (- value t)) as Hvn by (unfold is_int, int_min, int_max in *; lia).
  pose proof (balance_within_supply m (from t) Hm) as Hbf.
  unfold reference_tx, transfer_tx, transfer_Updates. simpl. unfold IM_GetAccount. simpl.
  rewrite (to_uint_small (value t))
    by (unfold is_uint, uint_modulus, int_max in *; lia).
  destruct (Z.ltb_spec (balance_of m (from t)) (value t)) as [Hlt|Hge]; [done|].
  unfold applyUpdates. simpl. rewrite (to_int_small _ Hvn).
  destruct (apply_update_solvent m (from t) (- value t) Hm Htot Hvn) as (_ & Hm1 & Ht1);
    [lia|lia|].
  set (m1 := apply_update m (mkUpdate (from t) (- value t))) in *.
  pose proof (balance_within_supply m1 (to t) Hm1) as Hbt.
  destruct (apply_update_solvent m1 (to t) (value t) Hm1) as (_ & Hm2 & Ht2);
    [lia|done|lia|lia|].
  split; [split; [done|lia]|lia].
Qed.

Lemma transfers_block_solvent s (txs : list Transaction) :
  solvent s → Forall plain_transfer txs →
  solvent (reference_block s txs) ∧ total_supply (reference_block s txs) = total_supply s.
Proof.
  intros Hs Htxs. revert s Hs.
  induction Htxs as [|tx txs (t & -> & Hv) _ IH]; intros s Hs; [done|].
  unfold reference_block in *. simpl.
  destruct (transfer_solvent s t Hs Hv) as [Hs1 Ht1].
  destruct (IH _ Hs1) as [Hs2 Ht2]. split; [done|congruence].
Qed.

Lemma transfers_chain_solvent s (blocks : list Block) :
  solvent s → Forall (λ b, Forall plain_transfer (Transactions b)) blocks →
  solvent (reference_chain s blocks) ∧ total_supply (reference_chain s blocks) = total_supply s.
Proof.
  intros Hs Hbs. revert s Hs.
  induction Hbs as [|b blocks Hb _ IH]; intros s Hs; [done|].
  unfold reference_chain in *. simpl.
  destruct (transfers_block_solvent s _ Hs Hb) as [Hs1 Ht1].
  destruct (IH _ Hs1) as [Hs2 Ht2]. split; [done|congruence].
Qed.

End Supply.

Lemma ex_solvent : solvent (NewInMemoryAccountState ex_init).
Proof.
  split; [|vm_compute; reflexivity].
  unfold NewInMemoryAccountState, ex_init. simpl.
  repeat (apply map_Forall_insert_2; [lia|]). apply map_Forall_empty.
Qed.

Lemma ex_plain_transfers : Forall (λ b, Forall plain_transfer (Transactions b)) [ex_block].
Proof.
  repeat constructor; eexists; (split; [reflexivity|]); simpl; unfold int_max; lia.
Qed.

(** X9. A transfer between two different accounts, of a value that the
    sender holds and that the receiver can take without leaving [uint],
    moves exactly that value: the sender has that much less, the receiver
    that much more, and every other account reads as before. *)
Theorem X9_transfer_moves_value (s : InMemoryAccountState) (t : transfer) :
  let bf := Balance (GetAccount s (from t)) in
  let bt := Balance (GetAccount s (to t)) in
  let s' := reference_tx s (transfer_tx t) in
  from t ≠ to t → is_uint bf → is_uint bt →
  0 <= value t <= bf → value t <= int_max → bt + value t < uint_modulus →
  GetAccount s' (from t) = mkValue (from t) (bf - value t)
  ∧ GetAccount s' (to t) = mkValue (to t) (bt + value t)
  ∧ ∀ name, name ≠ from t → name ≠ to t → GetAccount s' name = GetAccount s name.
Proof.
  destruct s as [m]. simpl. unfold IM_GetAccount. simpl.
  intros Hne Hbf Hbt Hv Hmax Hroom.
  assert (is_int (value t)) as Hvi by (unfold is_int, int_min, int_max in *; lia).
  assert (is_int (- value t)) as Hvn by (unfold is_int, int_min, int_max in *; lia).
  unfold reference_tx, transfer_tx, transfer_Updates. simpl. unfold IM_GetAccount. simpl.
  rewrite (to_uint_small (value t)) by (unfold is_uint in *; lia).
  destruct (Z.ltb_spec (balance_of m (from t)) (value t)) as [Hlt|Hge]; [lia|].
  unfold applyUpdates. simpl. rewrite (to_int_small _ Hvn).
  rewrite !apply_update_insert. simpl.
  rewrite (new_balance_exact _ _ Hbf Hvn) by (unfold is_uint in *; lia).
  assert (balance_of (<[from t := balance_of m (from t) + - value t]> m) (to t)
          = balance_of m (to t)) as Hto
    by (by rewrite balance_of_insert, decide_False).
  rewrite Hto, (new_balance_exact _ _ Hbt Hvi) by (unfold is_uint in *; lia).
  split; [|split].
  - f_equal. rewrite !balance_of_insert.
    rewrite (decide_False (P := to t = from t)) by done.
    rewrite decide_True by done. lia.
  - f_equal. by rewrite balance_of_insert, decide_True.
  - intros name Hf Ht. f_equal.
    rewrite !balance_of_insert, !decide_False; done.
Qed.

Lemma X9_transfer_moves_value_witness :
  let s := NewInMemoryAccountState ex_init in
  let s' := reference_tx s (transfer_tx (mkTransfer "A" "B" 5)) in
  GetAccount s' "A" = mkValue "A" (Balance (GetAccount s "A") - 5)
  ∧ GetAccount s' "B" = mkValue "B" (Balance (GetAccount s "B") + 5).
Proof.
  intros s s'.
  assert (is_uint (Balance (GetAccount s "A"))) as Ha
    by (vm_compute; split; [discriminate|reflexivity]).
  assert (is_uint (Balance (GetAccount s "B"))) as Hb
    by (vm_compute; split; [discriminate|reflexivity]).
  assert (0 <= 5 <= Balance (GetAccount s "A")) as Hv
    by (vm_compute; split; discriminate).
  assert (Balance (GetAccount s "B") + 5 < uint_modulus) as Hroom
    by (vm_compute; reflexivity).
  assert (5 <= int_max) as Hmax by (unfold int_max; lia).
  pose proof (X9_transfer_moves_value s (mkTransfer "A" "B" 5)) as H. simpl in H.
  assert ("A" ≠ "B") as Hne by discriminate.
  destruct (H Hne Ha Hb Hv Hmax Hroom) as (H1 & H2 & _).
  split; [exact H1|exact H2].
Defined.

(** X10. A transfer of a negative value out of an account that holds less
    than [2 ^ 63] fails: [uint] of the value is at least [2 ^ 63], so the
    balance check refuses it, the error names what the account holds, and
    the ledger keeps its state. *)
Theorem X10_negative_transfer_refused (s : InMemoryAccountState) (t : transfer) :
  let bf := Balance (GetAccount s (from t)) in
  is_int (value t) → value t < 0 → bf < 2 ^ 63 →
  Updates (transfer_tx t) s = ([], Some (transfer_error t bf))
  ∧ reference_tx s (transfer_tx t) = s.
Proof.
  intros bf Hv Hneg Hbf.
  assert (Updates (transfer_tx t) s = ([], Some (transfer_error t bf))) as HU.
  { unfold transfer_tx, transfer_Updates. simpl. unfold IM_GetAccount. simpl.
    change (balance_of (accounts s) (from t)) with bf.
    destruct (Z.ltb_spec bf (to_uint (value t))) as [_|Hge]; [done|].
    exfalso. revert Hge. unfold to_uint, uint_modulus, is_int, int_min, int_max in *.
    change (2 ^ 64) with 18446744073709551616.
    change (2 ^ 63) with 9223372036854775808 in *.
    intros Hge. Z.div_mod_to_equations. lia. }
  split; [done|]. unfold reference_tx. by rewrite HU.
Qed.

Lemma X10_negative_transfer_refused_witness :
  reference_tx (NewInMemoryAccountState ex_init) (transfer_tx (mkTransfer "A" "B" (-5)))
  = NewInMemoryAccountState ex_init.
Proof.
  apply (X10_negative_transfer_refused (NewInMemoryAccountState ex_init)
           (mkTransfer "A" "B" (-5))).
  - unfold is_int, int_min, int_max. simpl. lia.
  - simpl. lia.
  - vm_compute. reflexivity.
Defined.

(** X11. Transfers of values that are not negative neither create nor
    destroy money: when no initial balance is negative and the initial
    supply is below [2 ^ 64], what [Start] returns after any chain of such
    transfers, with at least one worker, sums to the initial supply. *)
Theorem X11_transfers_conserve_supply
    (blocks : list Block) (initialState : list AccountValue) (numWorkers : Z)
    (ret : list AccountValue * error) :
  1 <= numWorkers →
  solvent (NewInMemoryAccountState initialState) →
  Forall (λ b, Forall plain_transfer (Transactions b)) blocks →
  Start blocks initialState numWorkers ret →
  sum_balances ret.1 = total_supply (NewInMemoryAccountState initialState).
Proof.
  intros HW Hs Hbs Hstart. apply Start_result in Hstart as [Hp _]; [|done].
  rewrite (sum_balances_perm _ _ Hp).
  by destruct (transfers_chain_solvent _ blocks Hs Hbs) as [_ <-].
Qed.

Lemma X11_transfers_conserve_supply_witness :
  sum_balances [mkValue "C" 50; mkValue "A" 15; mkValue "B" 25]
  = total_supply (NewInMemoryAccountState ex_init).
Proof.
  apply (X11_transfers_conserve_supply [ex_block] ex_init 4
           ([mkValue "C" 50; mkValue "A" 15; mkValue "B" 25], None)).
  - lia.
  - exact ex_solvent.
  - exact ex_plain_transfers.
  - apply ex_Start_run. vm_compute. reflexivity.
Defined.

(** ** Further properties of the executor *)

(** X12. With at least one worker, the slice that [ExecuteBlock] returns
    lists, in some order, the ledger that it leaves, and that ledger is the
    one the sequential reference produces; the error is nil. *)
Theorem X12_execute_block_returns_snapshot
    (block : Block) (state state' : InMemoryAccountState) (numWorkers : Z)
    (ret : list AccountValue * error) :
  1 <= numWorkers →
  ExecuteBlock block state numWorkers state' ret →
  state' = reference_block state (Transactions block)
  ∧ ret.1 ≡ₚ getSnapshot state'
  ∧ ret.2 = None.
Proof. intros HW Hr. by apply (ExecuteBlock_result numWorkers HW). Qed.

Lemma X12_execute_block_returns_snapshot_witness :
  let s := NewInMemoryAccountState ex_init in
  let r := run 100 (ExecuteBlock_init ex_block s 4) in
  ledger r.2 = reference_block s (Transactions ex_block).
Proof.
  intros s r.
  assert (ExecuteBlock ex_block s 4 (ledger r.2)
            ([mkValue "C" 50; mkValue "A" 15; mkValue "B" 25], None)) as Hex.
  { exists r.1, r.2, [mkValue "C" 50; mkValue "A" 15; mkValue "B" 25].
    split; [apply run_sound|]. split; [vm_compute; reflexivity|]. by split. }
  assert (1 <= 4) as HW by lia.
  exact (proj1 (X12_execute_block_returns_snapshot ex_block s _ 4 _ HW Hex)).
Defined.

Lemma busy_in_pool (n k k' : nat) (w w' : worker_pc) :
  <[k := w]> (replicate n WRecv) !! k' = Some w' → k ≠ k' → busy w' = false.
Proof.
  intros Hk Hne. rewrite list_lookup_insert_ne in Hk by done.
  by apply lookup_replicate in Hk as [-> _].
Qed.

(** X13. With at least one worker, at most one worker at a time holds a job
    or a result, and only while the caller waits for a result: the pool
    never computes two transactions at once. *)
Theorem X13_one_transaction_in_flight
    (block : Block) (state : InMemoryAccountState) (numWorkers : Z)
    (tr : list event) (st : exec_state) :
  1 <= numWorkers →
  steps (ExecuteBlock_init block state numWorkers) tr st →
  (∀ k w, workers st !! k = Some w → busy w = true → ∃ i rest, main st = MRecv i rest)
  ∧ (∀ k k' w w', k ≠ k' → workers st !! k = Some w → workers st !! k' = Some w' →
       busy w = false ∨ busy w' = false).
Proof.
  intros HW Hsteps. apply exec_inv_reachable in Hsteps; [|done].
  destruct st as [l j r ws m]. unfold exec_inv in Hsteps. simpl in *.
  destruct m as [i rest|i rest| |ret|].
  - destruct Hsteps as (done & _ & _ & _ & _ & _ & _ & ->).
    split.
    + intros k w Hk. by apply lookup_replicate in Hk as [-> _].
    + intros k k' w w' _ Hk _. left. by apply lookup_replicate in Hk as [-> _].
  - destruct Hsteps as (done & tx & _ & _ & _ & Hfl). split; [by eauto|].
    intros k k' w w' Hne Hk Hk'.
    inversion Hfl as [Ht Hj Hr Hw | k0 Hlt Ht Hj Hr Hw | k0 Hlt Ht Hj Hr Hw | Ht Hj Hr Hw];
      subst.
    + left. by apply lookup_replicate in Hk as [-> _].
    + destruct (decide (k0 = k)) as [->|Hk0]; [right|left]; by eapply busy_in_pool.
    + destruct (decide (k0 = k)) as [->|Hk0]; [right|left]; by eapply busy_in_pool.
    + left. by apply lookup_replicate in Hk as [-> _].
  - destruct Hsteps as (_ & _ & _ & _ & Hw & _).
    assert (∀ k w, ws !! k = Some w → busy w = false) as Hidle.
    { intros k w Hk. by destruct (proj1 (Forall_lookup _ _) Hw k w Hk) as [-> | ->]. }
    split.
    + intros k w Hk Hb. rewrite (Hidle k w Hk) in Hb. done.
    + intros k k' w w' _ Hk _. left. by eapply Hidle.
  - destruct Hsteps as (_ & _ & _ & _ & Hw).
    assert (∀ k w, ws !! k = Some w → busy w = false) as Hidle.
    { intros k w Hk. by rewrite <- (proj1 (Forall_lookup _ _) Hw k w Hk). }
    split.
    + intros k w Hk Hb. rewrite (Hidle k w Hk) in Hb. done.
    + intros k k' w w' _ Hk _. left. by eapply Hidle.
  - done.
Qed.

Lemma X13_one_transaction_in_flight_witness :
  let r := run 3 (ExecuteBlock_init ex_block (NewInMemoryAccountState ex_init) 4) in
  workers r.2 !! 0%nat
    = Some (WSend (result_of ex_t1 0 (NewInMemoryAccountState ex_init)))
  ∧ ∃ i rest, main r.2 = MRecv i rest.
Proof.
  intros r.
  assert (workers r.2 !! 0%nat
          = Some (WSend (result_of ex_t1 0 (NewInMemoryAccountState ex_init)))) as Hk
    by (vm_compute; reflexivity).
  assert (1 <= 4) as HW by lia.
  split; [exact Hk|].
  exact (proj1 (X13_one_transaction_in_flight ex_block _ 4 r.1 r.2 HW (run_sound 3 _))
           0%nat _ Hk eq_refl).
Defined.

(** X14. Chains compose: running [Start] on a second list of blocks, from
    the accounts that [Start] returned for a first list, gives a result of
    [Start] on the two lists one after the other. *)
Theorem X14_chains_compose
    (blocks1 blocks2 : list Block) (initialState : list AccountValue) (numWorkers : Z)
    (r1 r2 : list AccountValue * error) :
  1 <= numWorkers →
  Start blocks1 initialState numWorkers r1 →
  Start blocks2 r1.1 numWorkers r2 →
  Start (blocks1 ++ blocks2) initialState numWorkers r2.
Proof.
  intros HW H1 H2.
  apply Start_result in H1 as [Hp1 _]; [|done].
  apply Start_result in H2 as [Hp2 He2]; [|done].
  rewrite (New_of_snapshot _ _ Hp1) in Hp2.
  destruct (Start_returns (blocks1 ++ blocks2) initialState numWorkers HW)
    as (ret & snap & Hrtc & Hperm).
  pose proof (start_inv_rtc _ _ _ HW _ Hrtc) as Hinv. simpl in Hinv.
  injection Hinv as Hsnap He.
  exists snap. rewrite He2, <- He. split; [done|].
  rewrite Hp2, Hsnap. unfold reference_chain. by rewrite fold_left_app.
Qed.

Lemma Start_of_run (blocks : list Block) (initialState : list AccountValue)
    (numWorkers : Z) (fuel : nat) (snap : list AccountValue) :
  start_run numWorkers fuel (Start_init blocks initialState) = SReturn (snap, None) →
  Start blocks initialState numWorkers (snap, None).
Proof.
  intros Hrun. exists snap. split; [|done].
  pose proof (start_run_sound numWorkers fuel (Start_init blocks initialState)) as H.
  rewrite Hrun in H. exact H.
Qed.

Lemma X14_chains_compose_witness :
  Start ([ex_block] ++ [mkBlock [ex_t1]]) ex_init 4
        ([mkValue "C" 50; mkValue "A" 10; mkValue "B" 30], None).
Proof.
  assert (1 <= 4) as HW by lia.
  apply (X14_chains_compose [ex_block] [mkBlock [ex_t1]] ex_init 4
           ([mkValue "C" 50; mkValue "A" 15; mkValue "B" 25], None) _ HW).
  - apply (Start_of_run _ _ _ 100). vm_compute. reflexivity.
  - apply (Start_of_run _ _ _ 100). vm_compute. reflexivity.
Defined.

Section NoWorker.

Variables (txs : list Transaction) (s0 : InMemoryAccountState) (numWorkers : Z).
Hypothesis HW : numWorkers <= 0.

Lemma exec_inv0_init : exec_inv0 txs s0 (ExecuteBlock_init (mkBlock txs) s0 numWorkers).
Proof.
  unfold exec_inv0. simpl. replace (Z.to_nat numWorkers) with 0%nat by lia.
  repeat split; try done. by left.
Qed.

Lemma exec_inv0_step st ev st' : exec_inv0 txs s0 st → step st ev st' → exec_inv0 txs s0 st'.
Proof.
  destruct st as [l [jb jc] [rb rc] ws m]. unfold exec_inv0. simpl.
  intros (-> & -> & -> & Hm) Hstep.
  inversion Hstep as [? ? ? H | k ? ? ? H | ? ? ? H]; subst; clear Hstep.
  - unfold main_step, chan_send, chan_recv in H. simpl in H.
    destruct m as [i [|tx rest]|i rest| |ret|]; simpl in *.
    + simplify_eq/=.
      destruct Hm as (_ & [(-> & <- & _)|(-> & tx & -> & _)]); repeat split; simpl; lia.
    + destruct Hm as (-> & [(-> & <- & ->)|(-> & tx' & -> & ->)]); simplify_eq/=.
      repeat split; try done. by exists tx.
    + destruct Hm as (-> & -> & tx & -> & ->). destruct rc; simplify_eq/=.
      repeat split; try done.
      * by destruct s0.
      * right. split; [done|]. by exists tx.
    + destruct rc; simplify_eq/=. by repeat split.
    + done.
    + done.
  - unfold worker_step in H. simpl in H. by destruct (alive _).
  - unfold closer_step in H. simpl in H.
    destruct (alive _); [|done]. destruct rc; simplify_eq/=. by repeat split.
Qed.

Lemma exec_inv0_steps tr st :
  steps (ExecuteBlock_init (mkBlock txs) s0 numWorkers) tr st → exec_inv0 txs s0 st.
Proof.
  remember (ExecuteBlock_init (mkBlock txs) s0 numWorkers) as st0 eqn:E.
  induction 1 as [st|st tr st' ev st'' Hsteps IH Hstep]; subst.
  - apply exec_inv0_init.
  - eapply exec_inv0_step; eauto.
Qed.

Lemma exec_inv0_progress st :
  txs = [] → exec_inv0 txs s0 st → returned st ∨ red exec_step st.
Proof.
  destruct st as [l [jb jc] [rb rc] ws m]. unfold exec_inv0. simpl.
  intros -> (-> & -> & -> & Hm).
  destruct m as [i rest|i rest| |ret|].
  - right. destruct Hm as (_ & [(-> & -> & _)|(_ & tx & ? & _)]); [|done].
    eexists; eexists. apply step_main. reflexivity.
  - by destruct Hm as (_ & _ & tx & ? & _).
  - right. destruct rc.
    + eexists; eexists. apply step_main. reflexivity.
    + eexists; eexists. apply step_closer. reflexivity.
  - left. destruct Hm as (_ & ->). by eexists.
  - done.
Qed.

End NoWorker.

(** X15. Without a worker ([numWorkers <= 0]) [ExecuteBlock] never writes
    the ledger and never panics, and it can only return when the block has
    at most one transaction, handing out the snapshot of the untouched
    ledger with a nil error: the transaction of a one-transaction block is
    silently dropped, and on a longer block the call never returns. *)
Theorem X15_no_worker_no_effect
    (block : Block) (state : InMemoryAccountState) (numWorkers : Z)
    (tr : list event) (st : exec_state) :
  numWorkers <= 0 →
  steps (ExecuteBlock_init block state numWorkers) tr st →
  ledger st = state
  ∧ main st ≠ MPanic
  ∧ ∀ ret, main st = MReturn ret →
      (length (Transactions block) ≤ 1)%nat ∧ ret = (getSnapshot state, None).
Proof.
  intros HW Hsteps. rewrite (block_eta block) in Hsteps.
  apply (exec_inv0_steps _ _ _ HW) in Hsteps.
  destruct Hsteps as (_ & Hl & _ & Hm). split; [done|]. split.
  - intros Hp. by rewrite Hp in Hm.
  - intros ret Hret. by rewrite Hret in Hm.
Qed.

Lemma X15_no_worker_no_effect_witness :
  let s := NewInMemoryAccountState ex_init in
  ledger (run 10 (ExecuteBlock_init ex_block s 0)).2 = s.
Proof.
  intros s.
  assert (0 <= 0) as HW by lia.
  exact (proj1 (X15_no_worker_no_effect ex_block s 0 _ _ HW (run_sound 10 _))).
Defined.

(** X16. On a block without transactions [ExecuteBlock] always returns,
    for every [numWorkers], also zero or negative; it leaves the ledger as
    it found it and returns its snapshot with a nil error. *)
Theorem X16_empty_block
    (state : InMemoryAccountState) (numWorkers : Z) :
  always_returns exec_step returned (ExecuteBlock_init (mkBlock []) state numWorkers)
  ∧ ∀ tr st ret,
      steps (ExecuteBlock_init (mkBlock []) state numWorkers) tr st →
      main st = MReturn ret →
      ledger st = state ∧ ret = (getSnapshot state, None).
Proof.
  destruct (decide (1 <= numWorkers)) as [HW|HW].
  - split; [by apply ExecuteBlock_always_returns|].
    intros tr st ret Hsteps Hm.
    apply exec_inv_reachable in Hsteps; [|done]. unfold exec_inv in Hsteps.
    rewrite Hm in Hsteps. destruct Hsteps as (-> & Hl & _). simpl in Hl. by rewrite Hl.
  - assert (numWorkers <= 0) as HW0 by lia. split.
    + split; [apply exec_step_sn|].
      intros st Hrtc. apply rtc_exec_steps in Hrtc as [tr Hsteps].
      apply (exec_inv0_steps _ _ _ HW0) in Hsteps.
      by eapply exec_inv0_progress.
    + intros tr st ret Hsteps Hm.
      apply (exec_inv0_steps _ _ _ HW0) in Hsteps.
      destruct Hsteps as (_ & Hl & _ & Hret). rewrite Hm in Hret.
      by destruct Hret as [_ ->].
Qed.

(** ** Properties of the helpers of the test file *)

Section TestHelpers.

Implicit Types (a b l : list AccountValue) (s : InMemoryAccountState).

Lemma compareResults_spec a b :
  compareResults a b = true
  ↔ length a = length b
    ∧ Forall (λ acc, balance_of (accounts (NewInMemoryAccountState a)) (AName acc)
                     = Balance acc) b.
Proof.
  unfold compareResults.
  destruct (Nat.eqb_spec (length a) (length b)) as [Hlen|Hlen]; simpl.
  - change (fold_left _ a ∅) with (accounts (NewInMemoryAccountState a)).
    rewrite <- Is_true_true, forallb_True. split.
    + intros H. split; [done|]. eapply Forall_impl; [exact H|].
      intros x Hx. simpl in Hx. by apply Is_true_true, Z.eqb_eq in Hx.
    + intros [_ H]. eapply Forall_impl; [exact H|].
      intros x Hx. simpl. by apply Is_true_true, Z.eqb_eq.
  - split; [done|]. by intros [? _].
Qed.

Lemma New_lookup_NoDup a x :
  NoDup (AName <$> a) → x ∈ a →
  accounts (NewInMemoryAccountState a) !! AName x = Some (Balance x).
Proof.
  intros Hnd Hx. rewrite New_list_to_map. apply elem_of_list_to_map_1.
  - rewrite fmap_reverse, reverse_Permutation. by rewrite <- list_fmap_compose.
  - rewrite elem_of_reverse. apply list_elem_of_fmap. by exists x.
Qed.

Lemma New_lookup_elem a n v :
  accounts (NewInMemoryAccountState a) !! n = Some v → mkValue n v ∈ a.
Proof.
  rewrite New_list_to_map. intros H. apply elem_of_list_to_map_2 in H.
  rewrite elem_of_reverse in H. apply list_elem_of_fmap in H as (x & Hx & Hin).
  destruct x as [n' v']. by simplify_eq/=.
Qed.

Lemma compareResults_perm a b :
  NoDup (AName <$> a) → a ≡ₚ b → compareResults a b = true.
Proof.
  intros Hnd Hp. apply compareResults_spec. split; [by rewrite Hp|].
  apply Forall_forall. intros x Hx. rewrite <- Hp in Hx.
  unfold balance_of. by rewrite (New_lookup_NoDup a x Hnd Hx).
Qed.

End TestHelpers.

(** X17. The check that the tests make of two runs cannot fail: for the
    same blocks and initial accounts, [compareResults] accepts what [Start]
    returns with any two worker counts that are at least 1. *)
Theorem X17_compare_accepts_two_runs
    (blocks : list Block) (initialState : list AccountValue) (W1 W2 : Z)
    (r1 r2 : list AccountValue * error) :
  1 <= W1 → 1 <= W2 →
  Start blocks initialState W1 r1 →
  Start blocks initialState W2 r2 →
  compareResults r1.1 r2.1 = true.
Proof.
  intros H1 H2 Hr1 Hr2.
  apply Start_result in Hr1 as [Hp1 _]; [|done].
  apply Start_result in Hr2 as [Hp2 _]; [|done].
  apply compareResults_perm.
  - rewrite Hp1. apply getSnapshot_NoDup_names.
  - by rewrite Hp1, Hp2.
Qed.

Lemma X17_compare_accepts_two_runs_witness :
  compareResults [mkValue "C" 50; mkValue "A" 15; mkValue "B" 25]
                 [mkValue "C" 50; mkValue "A" 15; mkValue "B" 25] = true.
Proof.
  apply (X17_compare_accepts_two_runs [ex_block] ex_init 1 16
           ([mkValue "C" 50; mkValue "A" 15; mkValue "B" 25], None)
           ([mkValue "C" 50; mkValue "A" 15; mkValue "B" 25], None)).
  - lia.
  - lia.
  - apply (Start_of_run _ _ _ 100). vm_compute. reflexivity.
  - apply (Start_of_run _ _ _ 100). vm_compute. reflexivity.
Defined.

(** X18. When the second list names each account once and holds no zero
    balance, [compareResults] accepts only a reordering of it: the two
    lists then hold the same accounts with the same balances. *)
Theorem X18_compare_sound_without_zero (a b : list AccountValue) :
  NoDup (AName <$> b) →
  Forall (λ x, Balance x ≠ 0) b →
  compareResults a b = true →
  a ≡ₚ b.
Proof.
  intros Hnd Hnz Hc. apply compareResults_spec in Hc as [Hlen Hall].
  symmetry. apply submseteq_length_Permutation; [|lia].
  apply NoDup_submseteq.
  - eapply NoDup_fmap_1, Hnd.
  - intros x Hx.
    pose proof (proj1 (Forall_forall _ _) Hall x Hx) as Hb.
    pose proof (proj1 (Forall_forall _ _) Hnz x Hx) as Hz. cbv beta in Hb, Hz.
    unfold balance_of in Hb.
    destruct (accounts (NewInMemoryAccountState a) !! AName x) as [v|] eqn:Hv;
      simpl in Hb; [|by symmetry in Hb].
    subst v. apply New_lookup_elem in Hv. by destruct x.
Qed.

Lemma X18_compare_sound_without_zero_witness :
  [mkValue "C" 50; mkValue "A" 15; mkValue "B" 25] ≡ₚ ex_final.
Proof.
  apply X18_compare_sound_without_zero.
  - unfold ex_final. simpl.
    repeat (apply NoDup_cons; split;
            [rewrite ?not_elem_of_cons; repeat split; try discriminate; apply not_elem_of_nil|]).
    apply NoDup_nil_2.
  - repeat constructor; discriminate.
  - vm_compute. reflexivity.
Defined.

(** X19. [compareResults] cannot tell an account with balance 0 from an
    account that is absent: it accepts any second list of the same length
    whose accounts all have balance 0 and are unknown to the first. *)
Theorem X19_compare_blind_to_zero_accounts (a b : list AccountValue) :
  length a = length b →
  Forall (λ x, Balance x = 0 ∧ AName x ∉ (AName <$> a)) b →
  compareResults a b = true.
Proof.
  intros Hlen Hb. apply compareResults_spec. split; [done|].
  eapply Forall_impl; [exact Hb|]. intros x [Hz Hn]. cbv beta.
  assert (AName x ∉ dom (accounts (NewInMemoryAccountState a))) as Hdom.
  { rewrite New_dom. by rewrite elem_of_list_to_set. }
  apply not_elem_of_dom in Hdom. unfold balance_of. by rewrite Hdom, Hz.
Qed.

Lemma X19_compare_blind_to_zero_accounts_witness :
  compareResults [mkValue "A" 0] [mkValue "B" 0] = true.
Proof.
  apply X19_compare_blind_to_zero_accounts; [done|].
  repeat constructor. simpl. rewrite not_elem_of_cons.
  split; [discriminate|apply not_elem_of_nil].
Defined.

(** X20. On a listing of a ledger, in any order, [verifyResults] reports
    nothing exactly when the expected map is the map of the ledger. *)
Theorem X20_verify_accepts_exactly_the_ledger
    (s : InMemoryAccountState) (l : list AccountValue) (expected : gmap string Z) :
  l ≡ₚ getSnapshot s →
  verifyResults l expected = [] ↔ accounts s = expected.
Proof.
  intros Hp. unfold verifyResults.
  assert (length l = size (accounts s)) as Hlen.
  { rewrite Hp. unfold getSnapshot. by rewrite length_fmap, length_map_to_list. }
  assert (∀ f : AccountValue → list string, l ≫= f = [] ↔ Forall (λ x, f x = []) l) as Hbind.
  { intros f. clear Hp Hlen. induction l as [|x l' IH]; [by split|].
    rewrite bind_cons. split.
    - intros [Hx Hl]%app_eq_nil. constructor; [done|]. by apply IH.
    - intros Hall. apply Forall_cons in Hall as [-> Hl]. simpl. by apply IH. }
  split.
  - intros [H1 H2]%app_eq_nil.
    apply Hbind in H2. rewrite Hlen in H1.
    destruct (Nat.eqb_spec (size (accounts s)) (size expected)) as [Hsz|]; [|done].
    apply map_subseteq_size_eq; [|lia].
    apply map_subseteq_spec. intros n v Hnv.
    assert (mkValue n v ∈ l) as Hin by (rewrite Hp; by apply getSnapshot_elem).
    pose proof (proj1 (Forall_forall _ _) H2 _ Hin) as Hx. simpl in Hx.
    destruct (expected !! n) as [e|]; [|done].
    destruct (Z.eqb_spec v e) as [->|]; done.
  - intros <-. rewrite Hlen, Nat.eqb_refl. simpl.
    apply Hbind, Forall_forall. intros x Hx. rewrite Hp in Hx.
    apply getSnapshot_elem in Hx. rewrite Hx. by rewrite Z.eqb_refl.
Qed.

Lemma X20_verify_accepts_exactly_the_ledger_witness :
  let s := reference_chain (NewInMemoryAccountState ex_init) [ex_block] in
  verifyResults (reverse (getSnapshot s)) (accounts s) = [].
Proof.
  intros s.
  apply (X20_verify_accepts_exactly_the_ledger s (reverse (getSnapshot s)) (accounts s)).
  - apply reverse_Permutation.
  - reflexivity.
Defined.

(** ** Further properties of the ledger under its lock *)

Lemma sum_with_positive (f : thread → nat) (ts : list thread) :
  (0 < sum_list_with f ts)%nat → ∃ k t, ts !! k = Some t ∧ (0 < f t)%nat.
Proof.
  induction ts as [|x ts IH]; simpl; [lia|]. intros Hpos.
  destruct (decide (0 < f x)%nat) as [Hx|Hx].
  - by exists 0%nat, x.
  - destruct IH as (k & t & Hk & Ht); [lia|]. by exists (S k), t.
Qed.

(** X21. The lock excludes: in every state that goroutines calling
    [ApplyUpdates], [GetAccount] and [getSnapshot] on one ledger can reach,
    while one of them is inside the loop of [applyUpdates] no other one is
    inside that loop, and none is between its [RLock] and its [RUnlock]. *)
Theorem X21_writer_excludes_all
    (s0 : InMemoryAccountState) (pool : list thread) (st : locked_state)
    (k k' : nat) (t t' : thread) :
  forallb starting pool = true →
  rtc locked_step (locked_init s0 pool) st →
  l_threads st !! k = Some t → l_threads st !! k' = Some t' → k ≠ k' →
  holds_write t = 1%nat →
  holds_write t' = 0%nat ∧ holds_read t' = 0%nat.
Proof.
  intros Hstart Hrtc Hk Hk' Hne Ht.
  destruct (locked_inv_rtc s0 (pool ≫= owed) pool st Hstart eq_refl Hrtc)
    as (committed & Hr & Hw & Hwr & _).
  pose proof (sum_with_two holds_write _ _ _ _ _ Hne Hk Hk') as H2.
  pose proof (sum_with_lookup holds_read _ _ _ Hk') as H3.
  destruct (writer (l_mu st)); [|lia]. specialize (Hwr eq_refl). lia.
Qed.

Lemma X21_writer_excludes_all_witness :
  let st := locked_run [0; 0; 1; 2]%nat (locked_init (NewInMemoryAccountState ex_init) ex_pool) in
  l_threads st !! 0%nat = Some (ApplyLoop ex_updates 1)
  ∧ l_threads st !! 1%nat = Some (GetLock "B")
  ∧ holds_read (GetLock "B") = 0%nat.
Proof.
  intros st.
  assert (l_threads st !! 0%nat = Some (ApplyLoop ex_updates 1)) as H0
    by (vm_compute; reflexivity).
  assert (l_threads st !! 1%nat = Some (GetLock "B")) as H1 by (vm_compute; reflexivity).
  split; [exact H0|]. split; [exact H1|].
  assert (0 ≠ 1)%nat as Hne by lia.
  exact (proj2 (X21_writer_excludes_all (NewInMemoryAccountState ex_init) ex_pool st
                  0 1 _ _ eq_refl (locked_run_sound _ _) H0 H1 Hne eq_refl)).
Defined.

(** X22. The lock never blocks for good, and the batches are serialised:
    in every reachable state, if some goroutine has not returned then some
    goroutine can take a step; and once all have returned, the ledger is
    the initial one with all the batches applied whole, one after the
    other, in some order. *)
Theorem X22_no_deadlock_and_serial_outcome
    (s0 : InMemoryAccountState) (pool : list thread) (st : locked_state) :
  forallb starting pool = true →
  rtc locked_step (locked_init s0 pool) st →
  (forallb finished (l_threads st) = false → red locked_step st)
  ∧ (forallb finished (l_threads st) = true →
       ∃ order, order ≡ₚ pool ≫= owed ∧ l_state st = commit_all s0 order).
Proof.
  intros Hstart Hrtc.
  destruct (locked_inv_rtc s0 (pool ≫= owed) pool st Hstart eq_refl Hrtc)
    as (committed & Hr & Hw & Hwr & Hs & Hb & _).
  destruct st as [s [w r] ts]. simpl in *. split.
  - intros Hunf. destruct w.
    + destruct (sum_with_positive holds_write ts) as (k & t & Hk & Ht); [lia|].
      destruct t as [us|us i| |name|name|v|v| |i res|res|res]; simpl in Ht; try lia.
      exists (match us !! i with
              | Some update =>
                  mkLocked (mkState (apply_update (accounts s) update)) (mkMutex true r)
                           (<[k := ApplyLoop us (S i)]> ts)
              | None => mkLocked s (mkMutex false r) (<[k := ApplyDone]> ts)
              end), k.
      unfold thread_step. simpl. rewrite Hk. by destruct (us !! i).
    + destruct (decide (0 < r)%nat) as [Hpos|Hzero].
      * destruct (sum_with_positive holds_read ts) as (k & t & Hk & Ht); [lia|].
        destruct t as [us|us i| |name|name|v|v| |i res|res|res]; simpl in Ht; try lia.
        -- eexists. exists k. unfold thread_step. simpl. rewrite Hk. reflexivity.
        -- eexists. exists k. unfold thread_step. simpl. rewrite Hk. reflexivity.
        -- exists (match getSnapshot s !! i with
                   | Some a => mkLocked s (mkMutex false r)
                                        (<[k := SnapLoop (S i) (res ++ [a])]> ts)
                   | None => mkLocked s (mkMutex false r) (<[k := SnapUnlock res]> ts)
                   end), k.
           unfold thread_step. simpl. rewrite Hk. by destruct (getSnapshot s !! i).
        -- eexists. exists k. unfold thread_step. simpl. rewrite Hk. reflexivity.
      * assert (r = 0%nat) as -> by lia.
        assert (∃ k t, ts !! k = Some t ∧ finished t = false) as (k & t & Hk & Ht).
        { clear -Hunf. induction ts as [|x ts IH]; simpl in Hunf; [done|].
          destruct (finished x) eqn:Hx.
          - destruct (IH Hunf) as (k & t & Hk & Ht). by exists (S k), t.
          - by exists 0%nat, x. }
        pose proof (sum_with_lookup holds_read _ _ _ Hk) as H1.
        pose proof (sum_with_lookup holds_write _ _ _ Hk) as H2.
        destruct t; simpl in *; try lia; try done;
          eexists; exists k; unfold thread_step; simpl; rewrite Hk; reflexivity.
  - intros Hfin. apply Is_true_true_2, forallb_True in Hfin.
    assert (ts ≫= owed = []) as Howed.
    { clear -Hfin. induction Hfin as [|t ts Ht _ IH]; [done|].
      rewrite bind_cons, IH. by destruct t. }
    assert (sum_list_with holds_write ts = 0%nat) as Hnow.
    { clear -Hfin. induction Hfin as [|t ts Ht _ IH]; [done|].
      simpl. rewrite IH. by destruct t. }
    destruct w; [lia|].
    exists committed. rewrite Howed, app_nil_r in Hb. split; [done|]. by apply Hs.
Qed.

Lemma X22_no_deadlock_and_serial_outcome_witness :
  let s0 := NewInMemoryAccountState ex_init in
  ∃ order, order ≡ₚ ex_pool ≫= owed
           ∧ l_state (locked_run ex_schedule (locked_init s0 ex_pool)) = commit_all s0 order.
Proof.
  intros s0.
  apply (proj2 (X22_no_deadlock_and_serial_outcome s0 ex_pool
                  (locked_run ex_schedule (locked_init s0 ex_pool))
                  eq_refl (locked_run_sound _ _))).
  vm_compute. reflexivity.
Defined.

(** ** [Start] on no block *)

(** X23. On an empty list of blocks [Start] starts no worker: for every
    [numWorkers], also zero or negative, its results are exactly the
    listings of the initial ledger, in any order, with a nil error. *)
Theorem X23_start_without_blocks
    (initialState : list AccountValue) (numWorkers : Z) (ret : list AccountValue * error) :
  Start [] initialState numWorkers ret
  ↔ ret.1 ≡ₚ getSnapshot (NewInMemoryAccountState initialState) ∧ ret.2 = None.
Proof.
  split.
  - intros (snap & Hrtc & Hperm). unfold Start_init in Hrtc.
    apply rtc_inv in Hrtc as [Heq|(p & Hstep & Hrtc)]; [done|].
    inversion Hstep; subst.
    apply rtc_inv in Hrtc as [Heq|(p & Hstep' & _)].
    + injection Heq as <- <-. by split.
    + inversion Hstep'.
  - intros [Hperm He]. exists (getSnapshot (NewInMemoryAccountState initialState)).
    split; [|done]. rewrite He. apply rtc_once. constructor.
Qed.
